(** * cloud-init-builder: the include expander of [main.go]

    A shallow embedding of [processFile], [processIncludePath] and [main],
    together with the pieces of Go's [strings], [bufio] and [path/filepath]
    packages they call, and the properties of the expansion proved over it.

    Go strings are byte sequences: they are modelled as [list ascii].  The
    operating system (file contents, [os.Stat], [filepath.Walk], the path
    algebra) is a record of functions, so every theorem holds for every
    file system. *)

From Stdlib Require Import List Ascii String ZArith NArith Lia Bool.
Import ListNotations.
Local Open Scope list_scope.

Set Implicit Arguments.

(** ** Go strings *)

Definition str := list ascii.

(** A string literal of the source. *)
Definition lit (s : string) : str := list_ascii_of_string s.

Definition LF : ascii := "010"%char.
Definition CR : ascii := "013"%char.

Definition byteIs (c : ascii) (n : N) : bool := N.eqb (N_of_ascii c) n.

Module strings.

(** [strings.HasPrefix]. *)
Fixpoint HasPrefix (s prefix : str) {struct prefix} : bool :=
  match prefix with
  | [] => true
  | p :: prefix' =>
      match s with
      | [] => false
      | c :: s' => Ascii.eqb c p && HasPrefix s' prefix'
      end
  end.

(** [strings.HasSuffix]. *)
Definition HasSuffix (s suffix : str) : bool :=
  HasPrefix (rev s) (rev suffix).

(** [strings.TrimPrefix]: [s] without the leading [prefix], or [s] itself. *)
Definition TrimPrefix (s prefix : str) : str :=
  if HasPrefix s prefix then skipn (List.length prefix) s else s.

(** [strings.TrimSuffix]: [s] without the trailing [suffix], or [s] itself. *)
Definition TrimSuffix (s suffix : str) : str :=
  if HasSuffix s suffix then firstn (List.length s - List.length suffix) s else s.

(** [strings.Index]: the byte index of the first occurrence of [substr] in
    [s], or [-1]. *)
Fixpoint Index (s substr : str) : Z :=
  if HasPrefix s substr then 0%Z
  else match s with
       | [] => (-1)%Z
       | _ :: s' => let i := Index s' substr in
                    if (i <? 0)%Z then (-1)%Z else (i + 1)%Z
       end.

(** The slice expression [s[:i]]; [None] is the run-time panic
    "slice bounds out of range". *)
Definition sliceTo (s : str) (i : Z) : option str :=
  if ((0 <=? i) && (i <=? Z.of_nat (List.length s)))%Z
  then Some (firstn (Z.to_nat i) s) else None.

Fixpoint dropWhile (f : ascii -> bool) (s : str) : str :=
  match s with
  | [] => []
  | c :: s' => if f c then dropWhile f s' else s
  end.

Definition inCutset (cutset : str) (c : ascii) : bool :=
  existsb (Ascii.eqb c) cutset.

(** [strings.TrimRight] for a cutset of ASCII bytes (the source passes the
    one-byte cutset of a line feed): all trailing bytes of the cutset go. *)
Definition TrimRight (s cutset : str) : str :=
  rev (dropWhile (inCutset cutset) (rev s)).

(** *** [strings.TrimSpace]

    [TrimSpace] removes leading and trailing white space "as defined by
    Unicode": it decodes UTF-8 and tests [unicode.IsSpace].  The runes with
    that property and their encodings are
    U+0009..U+000D and U+0020 (one byte), U+0085 and U+00A0 ([C2 85],
    [C2 A0]), U+1680 ([E1 9A 80]), U+2000..U+200A ([E2 80 80..8A]), U+2028,
    U+2029, U+202F ([E2 80 A8], [E2 80 A9], [E2 80 AF]), U+205F ([E2 81 9F])
    and U+3000 ([E3 80 80]).  A byte sequence that is not the (shortest)
    encoding of one of them decodes to another rune or to the error rune,
    and stops the trimming. *)

Definition asciiSpace (c : ascii) : bool :=
  let b := N_of_ascii c in
  (N.leb 9 b && N.leb b 13) || N.eqb b 32.

Definition space2 (c1 c2 : ascii) : bool :=
  byteIs c1 194 && (byteIs c2 133 || byteIs c2 160).

Definition space3 (c1 c2 c3 : ascii) : bool :=
  let b3 := N_of_ascii c3 in
  (byteIs c1 225 && byteIs c2 154 && byteIs c3 128)
  || (byteIs c1 226 && byteIs c2 128
      && ((N.leb 128 b3 && N.leb b3 138) || N.eqb b3 168 || N.eqb b3 169
          || N.eqb b3 175))
  || (byteIs c1 226 && byteIs c2 129 && byteIs c3 159)
  || (byteIs c1 227 && byteIs c2 128 && byteIs c3 128).

(** [strings.TrimLeftFunc(s, unicode.IsSpace)]. *)
Fixpoint trimLeftSpace (s : str) : str :=
  match s with
  | [] => []
  | c1 :: t1 =>
      if asciiSpace c1 then trimLeftSpace t1
      else match t1 with
           | [] => s
           | c2 :: t2 =>
               if space2 c1 c2 then trimLeftSpace t2
               else match t2 with
                    | [] => s
                    | c3 :: t3 =>
                        if space3 c1 c2 c3 then trimLeftSpace t3 else s
                    end
           end
  end.

(** The same on the reversed string: [utf8.DecodeLastRuneInString] steps
    back over the continuation bytes to the first byte of the last rune, so
    the last rune is a space exactly when the string ends with its
    encoding. *)
Fixpoint trimLeftSpaceRev (r : str) : str :=
  match r with
  | [] => []
  | c1 :: t1 =>
      if asciiSpace c1 then trimLeftSpaceRev t1
      else match t1 with
           | [] => r
           | c2 :: t2 =>
               if space2 c2 c1 then trimLeftSpaceRev t2
               else match t2 with
                    | [] => r
                    | c3 :: t3 =>
                        if space3 c3 c2 c1 then trimLeftSpaceRev t3 else r
                    end
           end
  end.

(** [strings.TrimRightFunc(s, unicode.IsSpace)]. *)
Definition trimRightSpace (s : str) : str := rev (trimLeftSpaceRev (rev s)).

Definition TrimSpace (s : str) : str := trimRightSpace (trimLeftSpace s).

(** A string made of white-space runes only. *)
Inductive Spaces : str -> Prop :=
| Spaces_nil : Spaces []
| Spaces_1 c s : asciiSpace c = true -> Spaces s -> Spaces (c :: s)
| Spaces_2 c1 c2 s : space2 c1 c2 = true -> Spaces s -> Spaces (c1 :: c2 :: s)
| Spaces_3 c1 c2 c3 s :
    space3 c1 c2 c3 = true -> Spaces s -> Spaces (c1 :: c2 :: c3 :: s).

End strings.

Import strings.

Definition isEmpty (s : str) : bool :=
  match s with [] => true | _ :: _ => false end.

(** ** Errors

    One constructor for each [fmt.Errorf] of the source; the [%w] verb
    wraps the cause. *)

Inductive Error : Type :=
| OSError (msg : str)
    (** an error value of [os] or [path/filepath] *)
| ErrTooLong
    (** [bufio.ErrTooLong] *)
| ErrAbsPath (filePath : str) (cause : Error)
    (** "could not get absolute path for %s: %w" *)
| ErrOpenFile (filePath : str) (cause : Error)
    (** "failed to open file %s: %w" *)
| ErrInclude (includePathStr filePath : str) (cause : Error)
    (** "error processing include '%s' in file %s: %w" *)
| ErrReadFile (filePath : str) (cause : Error)
    (** "error reading file %s: %w" *)
| ErrNotFound (path : str) (cause : Error)
    (** "include path not found %s: %w" *)
| ErrDirFile (p : str) (cause : Error)
    (** "failed to process file in directory %s: %w" *).

(** A Go result pair [(string, error)]; [None] is [nil]. *)
Definition GoResult : Type := (str * option Error)%type.

(** ** The operating system *)

Record FileInfo : Type := { IsDir : bool }.

(** An open file: the bytes its [Read] delivers, and the error that ends
    them ([None] for [io.EOF]). *)
Record File : Type := { contents : str; readErr : option Error }.

(** One call of the [filepath.WalkFunc]: [fn(path, info, err)]. *)
Record WalkEntry : Type :=
  { walkPath : str; walkInfo : FileInfo; walkErr : option Error }.

(** [Walk root] lists the calls [filepath.Walk(root, fn)] makes to [fn] as
    long as [fn] returns [nil]: the callback of the source never returns
    [SkipDir] or [SkipAll], so its result only decides whether the walk goes
    on to the next entry. *)
Record OS : Type :=
  { Abs : str -> str + Error;
    Rel : str -> str -> str + Error;
    ToSlash : str -> str;
    Dir : str -> str;
    Join : str -> str -> str;
    Open : str -> File + Error;
    Stat : str -> FileInfo + Error;
    Walk : str -> list WalkEntry }.

(** ** [bufio.Scanner] with the default split function [ScanLines] *)

Module bufio.

(** [bufio.MaxScanTokenSize], the size of the scanner's buffer. *)
Definition MaxScanTokenSize : N := 65536.

(** The lines of the input without their line feeds.  An input that ends
    in a line feed has no further (empty) line; a last line without a line
    feed is a line. *)
Fixpoint rawLines (data : str) : list str :=
  match data with
  | [] => []
  | c :: data' =>
      if Ascii.eqb c LF then [] :: rawLines data'
      else match rawLines data' with
           | [] => [[c]]
           | l :: ls => (c :: l) :: ls
           end
  end.

(** [dropCR]: a trailing carriage return is not part of the token. *)
Definition dropCR (l : str) : str :=
  match rev l with
  | c :: r => if Ascii.eqb c CR then rev r else l
  | [] => l
  end.

(** A line whose bytes fill the buffer before its line feed is seen ends
    the scan with [ErrTooLong]. *)
Definition tooLong (l : str) : bool :=
  N.leb MaxScanTokenSize (N.of_nat (List.length l)).

(** What the loop [for scanner.Scan() { ... scanner.Text() ... }] sees,
    and [scanner.Err()] after it. *)
Record Scanner : Type := { tokens : list str; scanErr : option Error }.

Fixpoint scanLines (raw : list str) (atEnd : option Error) : Scanner :=
  match raw with
  | [] => {| tokens := []; scanErr := atEnd |}
  | l :: raw' =>
      if tooLong l then {| tokens := []; scanErr := Some ErrTooLong |}
      else let s := scanLines raw' atEnd in
           {| tokens := dropCR l :: tokens s; scanErr := scanErr s |}
  end.

(** [bufio.NewScanner(file)]: after a read error the scanner still splits
    what it has read, as at the end of the input. *)
Definition NewScanner (file : File) : Scanner :=
  scanLines (rawLines (contents file)) (readErr file).

(** [bufio.NewScanner(strings.NewReader(s))]. *)
Definition NewStringScanner (s : str) : Scanner :=
  NewScanner {| contents := s; readErr := None |}.

End bufio.

Import bufio.

(** ** Runs of the program

    A call returns a value, having written warnings to the process log, or
    panics, or does not return.  [processFile] and [processIncludePath] call
    each other without a bound the source would state, so the model takes
    fuel, the depth to which [processFile] may nest: [OutOfFuel] stands for
    a recursion deeper than the fuel given, and a call that is [OutOfFuel]
    for every fuel does not return. *)

Inductive Warning : Type :=
| EmptyInclude (filePath : str)
    (** "Warning: Found empty #include directive in %s. Skipping." *).

Inductive Run (A : Type) : Type :=
| Ret (log : list Warning) (a : A)
| Panic
| OutOfFuel.

Arguments Panic {A}.
Arguments OutOfFuel {A}.

Definition ret {A : Type} (a : A) : Run A := Ret [] a.

Definition bind {A B : Type} (m : Run A) (k : A -> Run B) : Run B :=
  match m with
  | Ret w a => match k a with
               | Ret w' b => Ret (w ++ w') b
               | Panic => Panic
               | OutOfFuel => OutOfFuel
               end
  | Panic => Panic
  | OutOfFuel => OutOfFuel
  end.

Definition logPrintf (w : Warning) : Run unit := Ret [w] tt.

Notation "x <- m ;; k" := (bind m (fun x => k))
  (at level 61, m at next level, right associativity).
Notation "m ;;; k" := (bind m (fun _ => k))
  (at level 61, right associativity).

(** ** The expander *)

(** The outcome of one iteration of the loop over the lines of a file. *)
Inductive LineResult : Type :=
| Emit (text : str)   (** written to [output] *)
| Skip                (** [continue] *)
| Abort (err : Error) (** [return "", err] *).

Section Expander.

Variable os : OS.

(** Lines 74-84 of [main.go]: the included content, re-indented, and the
    empty line after it.  [contentScanner.Err()] is never looked at. *)
Definition indentBlock (indentation includedContent : str) : str :=
  let contentToIndent := TrimSuffix includedContent [LF] in
  (if isEmpty contentToIndent then []
   else flat_map (fun l => indentation ++ l ++ [LF])
                 (tokens (NewStringScanner contentToIndent)))
  ++ [LF].

(** The body of the loop [for scanner.Scan()] of [processFile]; [pip] is
    [processIncludePath] with its [rootDir]. *)
Definition processLine (pip : str -> Run GoResult) (filePath line : str)
  : Run LineResult :=
  let trimmedLine := TrimSpace line in
  if HasPrefix trimmedLine (lit "#include:") then
    match sliceTo line (Index line (lit "#")) with
    | None => Panic
    | Some indentation =>
        let includePathStr :=
          TrimSpace (TrimPrefix trimmedLine (lit "#include:")) in
        if isEmpty includePathStr then
          logPrintf (EmptyInclude filePath) ;;; ret Skip
        else
          let baseDir := Dir os filePath in
          let fullIncludePath := Join os baseDir includePathStr in
          r <- pip fullIncludePath ;;
          match r with
          | (_, Some err) =>
              ret (Abort (ErrInclude includePathStr filePath err))
          | (includedContent, None) =>
              ret (Emit (indentBlock indentation includedContent))
          end
    end
  else ret (Emit (line ++ [LF])).

(** The loop: [output] is the [strings.Builder]. *)
Fixpoint scanLoop (pip : str -> Run GoResult) (filePath : str)
    (lines : list str) (output : str) : Run (str + Error) :=
  match lines with
  | [] => ret (inl output)
  | line :: rest =>
      r <- processLine pip filePath line ;;
      match r with
      | Emit text => scanLoop pip filePath rest (output ++ text)
      | Skip => scanLoop pip filePath rest output
      | Abort err => ret (inr err)
      end
  end.

(** [fmt.Sprintf("# START %s\n", ...)] and [fmt.Sprintf("\n# END %s\n", ...)]. *)
Definition startMarker (rel : str) : str := lit "# START " ++ rel ++ [LF].
Definition endMarker (rel : str) : str := LF :: lit "# END " ++ rel ++ [LF].

(** The path shown in the markers of a file. *)
Definition markerPath (filePath rootDir absPath : str) : str :=
  let relativePath :=
    match Rel os rootDir absPath with
    | inl rel => rel
    | inr _ => filePath
    end in
  ToSlash os relativePath.

(** [processFile], given [processIncludePath]. *)
Definition processFileWith (pip : str -> Run GoResult)
    (filePath rootDir : str) (isRoot : bool) : Run GoResult :=
  match Abs os filePath with
  | inr err => ret ([], Some (ErrAbsPath filePath err))
  | inl absPath =>
      match Open os absPath with
      | inr err => ret ([], Some (ErrOpenFile filePath err))
      | inl file =>
          let rel := markerPath filePath rootDir absPath in
          let output : str := if isRoot then [] else startMarker rel in
          let scanner := NewScanner file in
          r <- scanLoop pip filePath (tokens scanner) output ;;
          match r with
          | inr err => ret ([], Some err)
          | inl output =>
              match scanErr scanner with
              | Some err => ret ([], Some (ErrReadFile filePath err))
              | None =>
                  let finalResult := output in
                  if isRoot then ret (finalResult, None)
                  else ret (TrimRight finalResult [LF] ++ endMarker rel, None)
              end
          end
      end
  end.

(** The callback of [filepath.Walk], run over the entries of the walk;
    [dirContent] is the [strings.Builder]. *)
Fixpoint walkLoop (pf : str -> Run GoResult) (entries : list WalkEntry)
    (dirContent : str) : Run (str + Error) :=
  match entries with
  | [] => ret (inl dirContent)
  | e :: rest =>
      match walkErr e with
      | Some err => ret (inr err)
      | None =>
          if negb (IsDir (walkInfo e)) then
            r <- pf (walkPath e) ;;
            match r with
            | (_, Some err) => ret (inr (ErrDirFile (walkPath e) err))
            | (fileContent, None) =>
                walkLoop pf rest (dirContent ++ fileContent)
            end
          else walkLoop pf rest dirContent
      end
  end.

(** [processIncludePath], given [processFile] with [rootDir] and
    [isRoot = false]. *)
Definition processIncludePathWith (pf : str -> Run GoResult) (path : str)
  : Run GoResult :=
  match Stat os path with
  | inr err => ret ([], Some (ErrNotFound path err))
  | inl info =>
      if IsDir info then
        r <- walkLoop pf (Walk os path) [] ;;
        match r with
        | inr walkErr => ret ([], Some walkErr)
        | inl dirContent => ret (dirContent, None)
        end
      else pf path
  end.

(** The two functions call each other; [fuel] bounds the depth of the
    calls of [processFile]. *)
Fixpoint processFile (fuel : nat) (filePath rootDir : str) (isRoot : bool)
  : Run GoResult :=
  match fuel with
  | O => OutOfFuel
  | S fuel' =>
      processFileWith
        (processIncludePathWith (fun p => processFile fuel' p rootDir false))
        filePath rootDir isRoot
  end.

Definition processIncludePath (fuel : nat) (path rootDir : str)
  : Run GoResult :=
  processIncludePathWith (fun p => processFile fuel p rootDir false) path.

(** ** [main] *)

Inductive Diagnostic : Type :=
| UsageError
    (** "Error: A single directory path must be provided as an argument." *)
| LogWarning (w : Warning)
| FatalCannotAccess (rootDir : str) (err : Error)
    (** "Error: Cannot access directory '%s': %v" *)
| FatalNotADirectory (rootDir : str)
    (** "Error: The provided path '%s' is not a directory." *)
| FatalTemplateNotFound (rootDir : str) (err : Error)
    (** "Error: 'cloud-init.yaml' not found in directory '%s': %v" *)
| FatalExpand (err : Error)
    (** "Failed to expand cloud-init file: %v" *).

(** What a finished process leaves behind. *)
Record Process : Type :=
  { stdout : str; stderr : list Diagnostic; exitCode : Z }.

Definition usageText : str :=
  lit "Usage: expander.exe <directory>" ++ [LF]
  ++ [LF] ++ lit "Press Enter to exit..." ++ [LF].

(** [main]; [osArgs] is [os.Args], the program name first.  [log.Fatalf]
    writes to standard error and exits with status 1.  With a wrong number
    of arguments the program waits for a line on standard input before it
    exits; standard input is not part of the model. *)
Definition main (fuel : nat) (osArgs : list str) : Run Process :=
  match osArgs with
  | [_; rootDir] =>
      match Stat os rootDir with
      | inr err =>
          ret {| stdout := []; stderr := [FatalCannotAccess rootDir err];
                 exitCode := 1 |}
      | inl info =>
          if negb (IsDir info) then
            ret {| stdout := []; stderr := [FatalNotADirectory rootDir];
                   exitCode := 1 |}
          else
            let initialFilePath :=
              Join os rootDir (lit "cloud-init.tmpl.yaml") in
            match Stat os initialFilePath with
            | inr err =>
                ret {| stdout := [];
                       stderr := [FatalTemplateNotFound rootDir err];
                       exitCode := 1 |}
            | inl _ =>
                match processFile fuel initialFilePath rootDir true with
                | Ret w (_, Some err) =>
                    ret {| stdout := [];
                           stderr := map LogWarning w ++ [FatalExpand err];
                           exitCode := 1 |}
                | Ret w (finalContent, None) =>
                    ret {| stdout := finalContent;
                           stderr := map LogWarning w;
                           exitCode := 0 |}
                | Panic => Panic
                | OutOfFuel => OutOfFuel
                end
            end
      end
  | _ =>
      ret {| stdout := usageText; stderr := [UsageError]; exitCode := 1 |}
  end.

End Expander.

(** ** The vocabulary of the properties *)

(** A line the expander takes for a directive (line 48 of [main.go]). *)
Definition isDirective (line : str) : bool :=
  HasPrefix (TrimSpace line) (lit "#include:").

(** The path argument of a directive line (line 54) and the indentation
    captured from it (line 51), when the slice does not panic. *)
Definition includePathOf (line : str) : str :=
  TrimSpace (TrimPrefix (TrimSpace line) (lit "#include:")).

Definition indentationOf (line : str) : str :=
  firstn (Z.to_nat (Index line (lit "#"))) line.

(** [pf'] returns whatever [pf] returns. *)
Definition extends (pf pf' : str -> Run GoResult) : Prop :=
  forall p w a, pf p = Ret w a -> pf' p = Ret w a.

(** An entry of a walk that is not a directory. *)
Definition fileEntry (e : WalkEntry) : bool := negb (IsDir (walkInfo e)).

(** Lines, each ended by one line feed. *)
Definition unlines (ls : list str) : str :=
  flat_map (fun l => l ++ [LF]) ls.

(** Line endings normalized to a line feed, byte by byte: the carriage
    return of a CR LF pair and a carriage return that ends the input go,
    and a last line that has no line feed gets one. *)
Fixpoint normalizeEOL (data : str) : str :=
  match data with
  | [] => []
  | c :: rest =>
      if Ascii.eqb c LF then LF :: normalizeEOL rest
      else match rest with
           | [] => if Ascii.eqb c CR then [LF] else [c; LF]
           | d :: _ =>
               if Ascii.eqb c CR && Ascii.eqb d LF then normalizeEOL rest
               else c :: normalizeEOL rest
           end
  end.

(** A line the scanner returns whole and unchanged. *)
Definition short (l : str) : Prop := tooLong l = false.
Definition noLF (l : str) : Prop := ~ In LF l.
Definition keepsCR (l : str) : Prop := dropCR l = l.

(** Text that is empty or ends in a line feed. *)
Definition closed (s : str) : Prop := s = [] \/ exists s', s = s' ++ [LF].

Definition hash : ascii := "#"%char.

(** The lines [contentScanner] yields for the content of an include. *)
Definition includedLines (content : str) : list str :=
  tokens (NewStringScanner (TrimSuffix content [LF])).

(** No line of the content of an include fills the scanner's buffer. *)
Definition rescans (content : str) : Prop :=
  Forall short (rawLines (TrimSuffix content [LF])).



(** The lines one line of a file does contribute, whatever the length of
    the lines of its include. *)
Inductive Emitted (os : OS) (pip : str -> Run GoResult) (filePath : str)
    (line : str) : list str -> Prop :=
| Emitted_copy :
    isDirective line = false ->
    Emitted os pip filePath line [line]
| Emitted_skip :
    isDirective line = true ->
    includePathOf line = [] ->
    Emitted os pip filePath line []
| Emitted_include w content :
    isDirective line = true ->
    includePathOf line <> [] ->
    pip (Join os (Dir os filePath) (includePathOf line))
    = Ret w (content, None) ->
    Emitted os pip filePath line
      (map (app (indentationOf line)) (includedLines content) ++ [[]]).

(** A marker line, indented or not. *)
Definition isMarkerLine (l : str) : bool :=
  HasPrefix (TrimSpace l) (lit "# START ")
  || HasPrefix (TrimSpace l) (lit "# END ").

(** [line] is a line of the file [path]. *)
Definition HasLine (os : OS) (path line : str) : Prop :=
  exists absPath file,
    Abs os path = inl absPath /\ Open os absPath = inl file
    /\ In line (tokens (NewScanner file)).

(** [line] is a directive of the file [host] that includes the regular
    file [target]. *)
Definition Includes (os : OS) (host line target : str) : Prop :=
  HasLine os host line
  /\ isDirective line = true
  /\ includePathOf line <> []
  /\ target = Join os (Dir os host) (includePathOf line)
  /\ exists info, Stat os target = inl info /\ IsDir info = false.

(** A line that is not empty once a trailing carriage return is dropped. *)
Definition solid (l : str) : Prop := dropCR l <> [].

(** [x] is a line of [ls] that is not empty or has after it a line with
    the property [P]. *)
Definition LineBefore (P : str -> Prop) (x : str) (ls : list str) : Prop :=
  exists a b, ls = a ++ x :: b /\ (x <> [] \/ exists e, In e b /\ P e).

(** A line of an expansion that is not an empty line at its end. *)
Definition StaysIn : str -> list str -> Prop := LineBefore solid.

(** A line of the body of a file that is not among the empty lines at its
    end. *)
Definition Kept : str -> list str -> Prop := LineBefore (fun e => e <> []).

(** The output of a file whose lines contribute [body]. *)
Definition render (isRoot : bool) (rel : str) (body : list str) : str :=
  if isRoot then unlines body
  else TrimRight (startMarker rel ++ unlines body) [LF] ++ endMarker rel.

(** ** A concrete operating system for the examples

    A disk is a table of clean absolute slash-separated paths, listed in
    the order in which [filepath.Walk] visits them.  The path functions are
    those of [path/filepath] on Unix restricted to such paths: joining a
    directory with a plain relative name, the directory of a path below the
    root, the path of a file relative to a directory above it. *)

Module Disk.

Inductive Node : Type :=
| RegularFile (data : str)
| Directory.

Definition Table : Type := list (str * Node).

Definition eqs (a b : str) : bool :=
  if list_eq_dec ascii_dec a b then true else false.

Fixpoint lookup (t : Table) (p : str) : option Node :=
  match t with
  | [] => None
  | (q, n) :: t' => if eqs p q then Some n else lookup t' p
  end.

Definition ENOENT : Error := OSError (lit "no such file or directory").
Definition EISDIR : Error := OSError (lit "is a directory").

Definition slash : ascii := "/"%char.

Definition dirOf (p : str) : str :=
  rev (tl (dropWhile (fun c => negb (Ascii.eqb c slash)) (rev p))).

Definition relTo (base target : str) : str + Error :=
  if HasPrefix target (base ++ [slash])
  then inl (skipn (S (List.length base)) target)
  else inr (OSError (lit "Rel: can't make path relative")).

Definition isDirNode (n : Node) : bool :=
  match n with Directory => true | RegularFile _ => false end.

Definition openNode (n : Node) : File :=
  match n with
  | RegularFile data => {| contents := data; readErr := None |}
  | Directory => {| contents := []; readErr := Some EISDIR |}
  end.

Definition below (root p : str) : bool :=
  eqs p root || HasPrefix p (root ++ [slash]).

Definition walkOf (t : Table) (root : str) : list WalkEntry :=
  map (fun e => {| walkPath := fst e;
                   walkInfo := {| IsDir := isDirNode (snd e) |};
                   walkErr := None |})
      (filter (fun e => below root (fst e)) t).

Definition mount (t : Table) : OS :=
  {| Abs := fun p => inl p;
     Rel := relTo;
     ToSlash := fun p => p;
     Dir := dirOf;
     Join := fun d n => d ++ slash :: n;
     Open := fun p => match lookup t p with
                      | Some n => inl (openNode n)
                      | None => inr ENOENT
                      end;
     Stat := fun p => match lookup t p with
                      | Some n => inl {| IsDir := isDirNode n |}
                      | None => inr ENOENT
                      end;
     Walk := walkOf t |}.

End Disk.

(** ** Sample disks *)

Module Sample.

Import Disk.
Local Open Scope string_scope.
Local Open Scope list_scope.

(** The lines of a text file, each ended by a line feed. *)
Definition text (ls : list string) : str := unlines (map lit ls).

Definition root : str := lit "/r".
Definition template : str := lit "/r/cloud-init.tmpl.yaml".

(** A template that includes one file, and files to expand on their own. *)
Definition disk : Table :=
  [ (lit "/r", Directory);
    (lit "/r/blank.yaml", RegularFile (text ["a"; "  #include:  "; "b"]));
    (lit "/r/cloud-init.tmpl.yaml",
       RegularFile (text ["write_files:"; "  #include: foo.txt"]));
    (lit "/r/cr.txt", RegularFile (lit "x" ++ [CR; CR; LF]));
    (lit "/r/crlf.txt", RegularFile (lit "x" ++ [CR; LF]));
    (lit "/r/e" ++ [LF], RegularFile []);
    (lit "/r/empty.txt", RegularFile []);
    (lit "/r/foo.txt", RegularFile (text ["a"; "b"]));
    (lit "/r/inner.txt", RegularFile (text ["key: value"; ""]));
    (lit "/r/middle.txt",
       RegularFile (text ["items:"; "    #include: inner.txt"]));
    (lit "/r/noeol.txt", RegularFile (lit "a"));
    (lit "/r/outer.yaml",
       RegularFile (text ["top:"; "  #include: middle.txt"; "end: true"]));
    (lit "/r/parts", Directory);
    (lit "/r/parts/10-users.txt", RegularFile (text ["- alice"]));
    (lit "/r/parts/20-groups.txt", RegularFile (text ["- admin"]));
    (lit "/r/trail.txt", RegularFile (text ["a"; ""; ""]));
    (lit "/r/walk.yaml", RegularFile (text ["users:"; "  #include: parts"])) ].

Definition os : OS := mount disk.

(** A template that includes itself, and two files that include each
    other. *)
Definition cyclicDisk : Table :=
  [ (lit "/r", Directory);
    (lit "/r/cloud-init.tmpl.yaml",
       RegularFile (text ["#include: cloud-init.tmpl.yaml"]));
    (lit "/r/ping.yaml", RegularFile (text ["#include: pong.yaml"]));
    (lit "/r/pong.yaml", RegularFile (text ["#include: ping.yaml"])) ].

Definition cyclic : OS := mount cyclicDisk.



(** A file of one line of 65536 bytes. *)
Definition longLine : str := repeat "x"%char (N.to_nat 65536).

Definition longDisk : Table :=
  [ (lit "/r", Directory);
    (lit "/r/long.txt", RegularFile (longLine ++ [LF])) ].

Definition long : OS := mount longDisk.

End Sample.

(** ** Further vocabulary *)

(** A byte of 7-bit ASCII that is no white space: it is a rune of its own,
    and no byte of the encoding of a white-space rune. *)
Definition plainByte (c : ascii) : bool :=
  N.ltb (N_of_ascii c) 128 && negb (asciiSpace c).

(** A string of white-space runes, read from its end. *)
Inductive SpacesR : str -> Prop :=
| SpacesR_nil : SpacesR []
| SpacesR_1 s c : SpacesR s -> asciiSpace c = true -> SpacesR (s ++ [c])
| SpacesR_2 s c1 c2 :
    SpacesR s -> space2 c1 c2 = true -> SpacesR (s ++ [c1; c2])
| SpacesR_3 s c1 c2 c3 :
    SpacesR s -> space3 c1 c2 c3 = true -> SpacesR (s ++ [c1; c2; c3]).

(** A path argument that begins and ends with a plain byte. *)
Definition tight (path : str) : bool :=
  match path with
  | [] => false
  | c :: t => plainByte c && plainByte (last t c)
  end.

(** Text without a directive line: what a second expansion would copy. *)
Definition plainText (out : str) : Prop :=
  Forall (fun l => isDirective l = false) (rawLines out).

(** The paths shown in the markers of the files that can be opened hold no
    line feed, so that a marker is one line. *)
Definition markersOnOneLine (os : OS) (rootDir : str) : Prop :=
  forall p absPath file,
    Abs os p = inl absPath -> Open os absPath = inl file ->
    noLF (markerPath os p rootDir absPath).

(** ** A second sample disk

    A template with a directory include, a file include and the include of
    a directory without files. *)

Module Site.

Import Disk.
Local Open Scope string_scope.
Local Open Scope list_scope.

Definition root : str := lit "/srv".
Definition template : str := lit "/srv/cloud-init.tmpl.yaml".

(** The expansion of the template. *)
Definition expanded : str :=
  Sample.text ["#cloud-config"; "write_files:";
               "  # START write_files/10-motd.yaml"; "  - path: /etc/motd";
               "  # END write_files/10-motd.yaml";
               "  # START write_files/20-hosts.yaml"; "  - path: /etc/hosts";
               "  # END write_files/20-hosts.yaml"; "";
               "packages:";
               "  # START packages.txt"; "  - salt-minion";
               "  # END packages.txt"; "";
               ""].

Definition disk : Table :=
  [ (lit "/srv", Directory);
    (lit "/srv/cloud-init.tmpl.yaml",
       RegularFile (Sample.text ["#cloud-config"; "write_files:";
                                 "  #include: write_files"; "packages:";
                                 "  #include: packages.txt";
                                 "  #include: void"]));
    (lit "/srv/expanded.yaml", RegularFile expanded);
    (lit "/srv/packages.txt",
       RegularFile (Sample.text ["- salt-minion"; "#include:"]));
    (lit "/srv/void", Directory);
    (lit "/srv/void/deeper", Directory);
    (lit "/srv/write_files", Directory);
    (lit "/srv/write_files/10-motd.yaml",
       RegularFile (Sample.text ["- path: /etc/motd"]));
    (lit "/srv/write_files/20-hosts.yaml",
       RegularFile (Sample.text ["- path: /etc/hosts"; ""])) ].

Definition os : OS := mount disk.

End Site.

(** A diagnostic that ends a run: any but a warning. *)
Definition isFatal (d : Diagnostic) : bool :=
  match d with LogWarning _ => false | _ => true end.

(** The lines a scanner delivers: those in front of the first line that
    fills its buffer. *)
Fixpoint scanned (raw : list str) : list str :=
  match raw with
  | [] => []
  | l :: raw' => if tooLong l then [] else l :: scanned raw'
  end.

(** [host] has a directive that makes the expander call [processFile] on
    [target]: the directive names the regular file [target], or a directory
    in which the walk finds the file [target]. *)
Definition Reaches (os : OS) (host target : str) : Prop :=
  (exists line, Includes os host line target)
  \/ (exists line info e,
        HasLine os host line
        /\ isDirective line = true
        /\ includePathOf line <> []
        /\ Stat os (Join os (Dir os host) (includePathOf line)) = inl info
        /\ IsDir info = true
        /\ In e (Walk os (Join os (Dir os host) (includePathOf line)))
        /\ fileEntry e = true
        /\ target = walkPath e).

(** No chain of includes that starts at [filePath] goes on for ever. *)
Definition WellFounded (os : OS) (filePath : str) : Prop :=
  Acc (fun target host => Reaches os host target) filePath.

(** The call of [processFile] returns within the depth [fuel]. *)
Definition Returns (os : OS) (rootDir : str) (fuel : nat) (filePath : str)
  : Prop :=
  forall isRoot, exists w r,
    processFile os fuel filePath rootDir isRoot = Ret w r.

(** The first directive of [host] that has a path names the regular file
    [target]: the lines in front of it are copied or skipped. *)
Definition FirstIncludes (os : OS) (host target : str) : Prop :=
  exists absPath file pre line post info,
    Abs os host = inl absPath
    /\ Open os absPath = inl file
    /\ tokens (NewScanner file) = pre ++ line :: post
    /\ Forall (fun l => isDirective l = true -> includePathOf l = []) pre
    /\ isDirective line = true
    /\ includePathOf line <> []
    /\ target = Join os (Dir os host) (includePathOf line)
    /\ Stat os target = inl info
    /\ IsDir info = false.


(** * Properties *)

(** ** The primitives on small inputs *)

Example TrimSpace_ex1 :
  TrimSpace (lit "  #include: foo.txt  ") = lit "#include: foo.txt".
Proof. reflexivity. Qed.

Example TrimSpace_nbsp :
  TrimSpace ("194"%char :: "160"%char :: lit "x" ++ ["226"; "128"; "168"]%char)
  = lit "x".
Proof. reflexivity. Qed.

Example Index_ex : Index (lit "  #include: a#b") (lit "#") = 2%Z.
Proof. reflexivity. Qed.

Example Index_absent : Index (lit "abc") (lit "#") = (-1)%Z.
Proof. reflexivity. Qed.

Example TrimRight_ex :
  TrimRight (lit "ab" ++ [LF; LF]) [LF] = lit "ab".
Proof. reflexivity. Qed.

Example TrimSuffix_ex :
  TrimSuffix (lit "ab" ++ [LF; LF]) [LF] = lit "ab" ++ [LF].
Proof. reflexivity. Qed.

Example rawLines_ex :
  rawLines (lit "a" ++ [LF] ++ [LF] ++ lit "b") = [lit "a"; []; lit "b"].
Proof. reflexivity. Qed.

Example scan_crlf :
  tokens (NewStringScanner (lit "a" ++ [CR; LF] ++ lit "b" ++ [CR; CR; LF]))
  = [lit "a"; lit "b" ++ [CR]].
Proof. reflexivity. Qed.

Example scan_final_cr :
  tokens (NewStringScanner (lit "a" ++ [LF; CR])) = [lit "a"; []].
Proof. reflexivity. Qed.

(** *** The expander on the sample disk *)

Example template_expands :
  processFile Sample.os 2 Sample.template Sample.root true
  = Ret [] (Sample.text ["write_files:"; "  # START foo.txt"; "  a"; "  b";
                         "  # END foo.txt"; ""]%string, None).
Proof. reflexivity. Qed.

Example nested_expands :
  processFile Sample.os 3 (lit "/r/outer.yaml") Sample.root true
  = Ret [] (Sample.text ["top:"; "  # START middle.txt"; "  items:";
                         "      # START inner.txt"; "      key: value";
                         "      # END inner.txt"; "  # END middle.txt";
                         ""; "end: true"]%string, None).
Proof. reflexivity. Qed.

Example directory_expands :
  processFile Sample.os 2 (lit "/r/walk.yaml") Sample.root true
  = Ret [] (Sample.text ["users:"; "  # START parts/10-users.txt";
                         "  - alice"; "  # END parts/10-users.txt";
                         "  # START parts/20-groups.txt"; "  - admin";
                         "  # END parts/20-groups.txt"; ""]%string, None).
Proof. reflexivity. Qed.

(** A directive without a path: one warning, and no line. *)
Example empty_directive_skipped :
  processFile Sample.os 1 (lit "/r/blank.yaml") Sample.root true
  = Ret [EmptyInclude (lit "/r/blank.yaml")]
        (Sample.text ["a"; "b"]%string, None).
Proof. reflexivity. Qed.

Example main_prints_expansion :
  main Sample.os 2 [lit "expander"; Sample.root]
  = Ret [] {| stdout := Sample.text ["write_files:"; "  # START foo.txt";
                                     "  a"; "  b"; "  # END foo.txt";
                                     ""]%string;
              stderr := [];
              exitCode := 0 |}.
Proof. reflexivity. Qed.

Example main_usage :
  main Sample.os 2 [lit "expander"]
  = Ret [] {| stdout := usageText; stderr := [UsageError]; exitCode := 1 |}.
Proof. reflexivity. Qed.

(** ** Strings *)

Lemma HasPrefix_iff (s p : str) :
  HasPrefix s p = true <-> exists r, s = p ++ r.
Proof.
  revert s; induction p as [|c p IH]; intros s; simpl.
  - split; [intros _; now exists s | reflexivity].
  - destruct s as [|d s].
    + split; [discriminate | intros [r Hr]; discriminate].
    + rewrite andb_true_iff, Ascii.eqb_eq, IH. split.
      * intros [-> [r ->]]. now exists r.
      * intros [r Hr]. injection Hr as -> ->. split; [reflexivity | now exists r].
Qed.

Lemma HasPrefix_app (p r : str) : HasPrefix (p ++ r) p = true.
Proof. apply HasPrefix_iff. now exists r. Qed.

Lemma HasPrefix_app_l (s p r : str) :
  HasPrefix s p = true -> HasPrefix (s ++ r) p = true.
Proof.
  rewrite !HasPrefix_iff. intros [q ->]. exists (q ++ r). now rewrite app_assoc.
Qed.

Lemma asciiSpace_not_hash c : asciiSpace c = true -> c <> hash.
Proof. intros H ->. discriminate H. Qed.

Lemma space2_not_hash c1 c2 :
  space2 c1 c2 = true -> c1 <> hash /\ c2 <> hash.
Proof.
  unfold space2. intros H. split; intros ->; cbn in H.
  - discriminate.
  - now rewrite andb_false_r in H.
Qed.

Lemma space3_not_hash c1 c2 c3 :
  space3 c1 c2 c3 = true -> c1 <> hash /\ c2 <> hash /\ c3 <> hash.
Proof.
  unfold space3. intros H. repeat split; intros ->; cbn in H;
    rewrite ?andb_false_r, ?andb_false_l in H; cbn in H;
    rewrite ?andb_false_r, ?andb_false_l in H; discriminate.
Qed.

Lemma Spaces_no_hash ws : Spaces ws -> ~ In hash ws.
Proof.
  induction 1 as [|c s Hc _ IH|c1 c2 s Hc _ IH|c1 c2 c3 s Hc _ IH]; simpl.
  - tauto.
  - apply asciiSpace_not_hash in Hc. intuition congruence.
  - apply space2_not_hash in Hc. intuition congruence.
  - apply space3_not_hash in Hc. intuition congruence.
Qed.

(** The left trim removes a string of white-space runes. *)
Lemma trimLeftSpace_split_le (n : nat) :
  forall s, List.length s <= n ->
  exists ws, s = ws ++ trimLeftSpace s /\ Spaces ws.
Proof.
  induction n as [|n IH]; intros s Hn.
  - destruct s; [|simpl in Hn; lia]. exists []. split; [reflexivity|constructor].
  - destruct s as [|c1 t1]; [exists []; split; [reflexivity|constructor]|].
    simpl in Hn. simpl trimLeftSpace.
    destruct (asciiSpace c1) eqn:H1.
    { destruct (IH t1) as [ws [E W]]; [lia|].
      exists (c1 :: ws). split; [simpl; now rewrite <- E | now constructor]. }
    destruct t1 as [|c2 t2]; [exists []; split; [reflexivity|constructor]|].
    simpl in Hn.
    destruct (space2 c1 c2) eqn:H2.
    { destruct (IH t2) as [ws [E W]]; [lia|].
      exists (c1 :: c2 :: ws). split; [simpl; now rewrite <- E | now constructor]. }
    destruct t2 as [|c3 t3]; [exists []; split; [reflexivity|constructor]|].
    simpl in Hn.
    destruct (space3 c1 c2 c3) eqn:H3.
    { destruct (IH t3) as [ws [E W]]; [lia|].
      exists (c1 :: c2 :: c3 :: ws).
      split; [simpl; now rewrite <- E | now constructor]. }
    exists []. split; [reflexivity|constructor].
Qed.

Lemma trimLeftSpace_split (s : str) :
  exists ws, s = ws ++ trimLeftSpace s /\ Spaces ws.
Proof. apply (trimLeftSpace_split_le (n := List.length s)). lia. Qed.

Lemma trimLeftSpaceRev_suffix_le (n : nat) :
  forall r, List.length r <= n -> exists pre, r = pre ++ trimLeftSpaceRev r.
Proof.
  induction n as [|n IH]; intros r Hn.
  - destruct r; [|simpl in Hn; lia]. now exists [].
  - destruct r as [|c1 t1]; [now exists []|].
    simpl in Hn. simpl trimLeftSpaceRev.
    destruct (asciiSpace c1).
    { destruct (IH t1) as [pre E]; [lia|].
      exists (c1 :: pre). simpl. now rewrite <- E. }
    destruct t1 as [|c2 t2]; [now exists []|]. simpl in Hn.
    destruct (space2 c2 c1).
    { destruct (IH t2) as [pre E]; [lia|].
      exists (c1 :: c2 :: pre). simpl. now rewrite <- E. }
    destruct t2 as [|c3 t3]; [now exists []|]. simpl in Hn.
    destruct (space3 c3 c2 c1).
    { destruct (IH t3) as [pre E]; [lia|].
      exists (c1 :: c2 :: c3 :: pre). simpl. now rewrite <- E. }
    now exists [].
Qed.

(** The right trim keeps a prefix. *)
Lemma trimRightSpace_prefix (s : str) :
  exists suf, s = trimRightSpace s ++ suf.
Proof.
  unfold trimRightSpace.
  destruct (trimLeftSpaceRev_suffix_le (n := List.length (rev s)) (rev s))
    as [pre E]; [lia|].
  exists (rev pre).
  rewrite <- rev_app_distr, <- E. now rewrite rev_involutive.
Qed.

Lemma Index_hash (ws r : str) :
  ~ In hash ws -> Index (ws ++ hash :: r) [hash] = Z.of_nat (List.length ws).
Proof.
  induction ws as [|c ws IH]; intros Hn.
  - reflexivity.
  - simpl in Hn. cbn [app Index HasPrefix].
    destruct (Ascii.eqb c hash) eqn:E.
    + apply Ascii.eqb_eq in E. intuition congruence.
    + cbn [andb]. rewrite IH by tauto.
      destruct (Z.ltb_spec (Z.of_nat (List.length ws)) 0); simpl List.length; lia.
Qed.

Lemma sliceTo_app (a b : str) :
  sliceTo (a ++ b) (Z.of_nat (List.length a)) = Some a.
Proof.
  unfold sliceTo. rewrite length_app.
  replace ((0 <=? Z.of_nat (List.length a))%Z) with true by (symmetry; apply Z.leb_le; lia).
  replace ((Z.of_nat (List.length a) <=? Z.of_nat (List.length a + List.length b))%Z)
    with true by (symmetry; apply Z.leb_le; lia).
  cbn [andb]. rewrite Nat2Z.id, firstn_app, Nat.sub_diag, firstn_all.
  cbn [firstn]. now rewrite app_nil_r.
Qed.

(** The shape of a directive line: white space, the marker, the rest. *)
Lemma directive_shape (line : str) :
  HasPrefix (TrimSpace line) (lit "#include:") = true ->
  exists ws rest,
    line = ws ++ lit "#include:" ++ rest /\ Spaces ws
    /\ trimLeftSpace line = lit "#include:" ++ rest.
Proof.
  intros H. unfold TrimSpace in H.
  destruct (trimRightSpace_prefix (trimLeftSpace line)) as [suf E].
  apply HasPrefix_app_l with (r := suf) in H. rewrite <- E in H.
  apply HasPrefix_iff in H. destruct H as [rest Hr].
  destruct (trimLeftSpace_split line) as [ws [El W]].
  exists ws, rest. rewrite <- Hr. auto.
Qed.

(** The slice of line 51 on a directive line. *)
Lemma directive_slice (line : str) :
  isDirective line = true ->
  sliceTo line (Index line (lit "#")) = Some (indentationOf line)
  /\ Spaces (indentationOf line)
  /\ exists rest, line = indentationOf line ++ lit "#include:" ++ rest.
Proof.
  intros H. destruct (directive_shape line H) as [ws [rest [E [W _]]]].
  pose proof (Spaces_no_hash W) as Hn.
  assert (Hi : Index line (lit "#") = Z.of_nat (List.length ws)).
  { rewrite E. apply (Index_hash ws (lit "include:" ++ rest) Hn). }
  assert (Hw : indentationOf line = ws).
  { unfold indentationOf. rewrite Hi, Nat2Z.id. rewrite E.
    rewrite firstn_app, Nat.sub_diag, firstn_all. cbn. apply app_nil_r. }
  rewrite Hw, Hi. split; [|split; [exact W | now exists rest]].
  rewrite E. apply sliceTo_app.
Qed.

(** C10. A line whose trimmed form starts with [#include:] contains a [#]:
    [strings.Index(line, "#")] is not negative and is at most the length of
    the line, so the slice [line[:index]] does not panic; the slice is the
    white space in front of the marker, hence made of white-space
    characters only. *)
Theorem indentation_slice_safe (line : str) :
  HasPrefix (TrimSpace line) (lit "#include:") = true ->
  In hash line
  /\ (0 <= Index line (lit "#") <= Z.of_nat (List.length line))%Z
  /\ exists indentation,
       sliceTo line (Index line (lit "#")) = Some indentation
       /\ Spaces indentation
       /\ exists rest, line = indentation ++ lit "#include:" ++ rest.
Proof.
  intros H. destruct (directive_shape line H) as [ws [rest [E [W _]]]].
  pose proof (Spaces_no_hash W) as Hn.
  assert (Hi : Index line (lit "#") = Z.of_nat (List.length ws)).
  { rewrite E. apply (Index_hash ws (lit "include:" ++ rest) Hn). }
  rewrite Hi. split; [|split].
  - rewrite E. apply in_or_app. right. now left.
  - rewrite E, length_app. lia.
  - exists ws. split; [|split; [exact W | now exists rest]].
    rewrite E. apply sliceTo_app.
Qed.

Lemma indentation_slice_safe_witness :
  HasPrefix (TrimSpace (lit "  #include: foo.txt")) (lit "#include:") = true
  /\ exists indentation,
       sliceTo (lit "  #include: foo.txt")
               (Index (lit "  #include: foo.txt") (lit "#"))
       = Some indentation
       /\ Spaces indentation
       /\ exists rest,
            lit "  #include: foo.txt" = indentation ++ lit "#include:" ++ rest.
Proof.
  split; [reflexivity|].
  apply (indentation_slice_safe (lit "  #include: foo.txt")). reflexivity.
Defined.

(** ** Lines *)

Lemma eqb_LF_false c : c <> LF -> Ascii.eqb c LF = false.
Proof. intros H. now apply Ascii.eqb_neq. Qed.

Lemma rawLines_nil_iff (data : str) : rawLines data = [] <-> data = [].
Proof.
  split; [|now intros ->].
  destruct data as [|c data]; [reflexivity|]. simpl.
  destruct (Ascii.eqb c LF); [discriminate|].
  destruct (rawLines data); discriminate.
Qed.

Lemma rawLines_noLF (data : str) : Forall noLF (rawLines data).
Proof.
  induction data as [|c data IH]; simpl; [constructor|].
  destruct (Ascii.eqb c LF) eqn:E.
  - constructor; [intros []|exact IH].
  - apply Ascii.eqb_neq in E.
    destruct (rawLines data) as [|l ls].
    + constructor; [|constructor]. intros [H|[]]. congruence.
    + inversion IH as [|? ? Hl Hls]; subst.
      constructor; [|exact Hls]. intros [H|H]; [congruence | now apply Hl].
Qed.

(** A line and its line feed in front of more input. *)
Lemma rawLines_line (l rest : str) :
  noLF l -> rawLines (l ++ LF :: rest) = l :: rawLines rest.
Proof.
  induction l as [|c l IH]; intros Hl; simpl.
  - reflexivity.
  - rewrite eqb_LF_false by (intros ->; apply Hl; now left).
    rewrite IH by (intros H; apply Hl; now right). reflexivity.
Qed.

Lemma rawLines_last_line (l : str) : noLF l -> l <> [] -> rawLines l = [l].
Proof.
  induction l as [|c l IH]; intros Hl Hne; [congruence|]. simpl.
  rewrite eqb_LF_false by (intros ->; apply Hl; now left).
  destruct l as [|d l]; [reflexivity|].
  rewrite IH; [reflexivity | intros H; apply Hl; now right | discriminate].
Qed.

Lemma unlines_app (a b : list str) : unlines (a ++ b) = unlines a ++ unlines b.
Proof. unfold unlines. now rewrite flat_map_app. Qed.

Lemma unlines_cons (l : str) (ls : list str) :
  unlines (l :: ls) = l ++ LF :: unlines ls.
Proof. unfold unlines. simpl. now rewrite <- app_assoc. Qed.

Lemma rawLines_unlines (ls : list str) (rest : str) :
  Forall noLF ls -> rawLines (unlines ls ++ rest) = ls ++ rawLines rest.
Proof.
  induction 1 as [|l ls Hl _ IH]; [reflexivity|].
  rewrite unlines_cons, <- app_assoc. simpl.
  rewrite rawLines_line by exact Hl. now rewrite IH.
Qed.

Lemma closed_unlines (ls : list str) : closed (unlines ls).
Proof.
  induction ls as [|l ls IH] using rev_ind; [now left|].
  right. rewrite unlines_app. exists (unlines ls ++ l).
  rewrite unlines_cons. simpl. now rewrite <- app_assoc.
Qed.

Lemma closed_app (a b : str) : closed a -> closed b -> closed (a ++ b).
Proof.
  intros Ha [->|[b' ->]].
  - now rewrite app_nil_r.
  - right. exists (a ++ b'). now rewrite app_assoc.
Qed.

(** Splitting after a line feed splits the lines. *)
Lemma rawLines_snoc_LF (s rest : str) :
  rawLines ((s ++ [LF]) ++ rest) = rawLines (s ++ [LF]) ++ rawLines rest.
Proof.
  induction s as [|c s IH]; simpl; [reflexivity|].
  destruct (Ascii.eqb c LF); [now rewrite IH|].
  rewrite IH.
  destruct (rawLines (s ++ [LF])) as [|l ls] eqn:E; [|reflexivity].
  apply rawLines_nil_iff in E. now destruct s.
Qed.

Lemma rawLines_app (a b : str) :
  closed a -> rawLines (a ++ b) = rawLines a ++ rawLines b.
Proof.
  intros [->|[a' ->]]; [reflexivity | apply rawLines_snoc_LF].
Qed.

(** *** [dropCR] *)

Lemma dropCR_nil : dropCR [] = [].
Proof. reflexivity. Qed.

Lemma dropCR_one c : dropCR [c] = if Ascii.eqb c CR then [] else [c].
Proof. unfold dropCR. simpl. now destruct (Ascii.eqb c CR). Qed.

Lemma dropCR_cons c d l : dropCR (c :: d :: l) = c :: dropCR (d :: l).
Proof.
  unfold dropCR. change (rev (c :: d :: l)) with (rev (d :: l) ++ [c]).
  destruct (rev (d :: l)) as [|x r] eqn:E.
  - apply (f_equal (@List.length _)) in E. rewrite length_rev in E. discriminate.
  - simpl. destruct (Ascii.eqb x CR); [|reflexivity].
    now rewrite rev_app_distr.
Qed.

Lemma dropCR_snoc (l : str) c :
  dropCR (l ++ [c]) = if Ascii.eqb c CR then l else l ++ [c].
Proof.
  unfold dropCR. rewrite rev_app_distr. simpl.
  destruct (Ascii.eqb c CR); [apply rev_involutive | reflexivity].
Qed.

Lemma dropCR_noLF (l : str) : noLF l -> noLF (dropCR l).
Proof.
  destruct l as [|c l] using rev_ind; [easy|].
  rewrite dropCR_snoc. destruct (Ascii.eqb c CR); [|easy].
  intros H Hin. apply H, in_or_app. now left.
Qed.

Lemma dropCR_app (a l : str) : l <> [] -> dropCR (a ++ l) = a ++ dropCR l.
Proof.
  destruct l as [|c l] using rev_ind; [congruence|]. intros _.
  rewrite app_assoc, !dropCR_snoc.
  destruct (Ascii.eqb c CR); [reflexivity | now rewrite app_assoc].
Qed.

(** *** The scanner *)

Lemma scanLines_short (raw : list str) (atEnd : option Error) :
  Forall short raw ->
  scanLines raw atEnd = {| tokens := map dropCR raw; scanErr := atEnd |}.
Proof.
  induction 1 as [|l raw Hl _ IH]; simpl; [reflexivity|].
  unfold short in Hl. now rewrite Hl, IH.
Qed.

(** The scanner stops at the first line that fills its buffer. *)
Lemma scanLines_stops (raw1 : list str) (l : str) (raw2 : list str) atEnd :
  Forall short raw1 -> tooLong l = true ->
  scanLines (raw1 ++ l :: raw2) atEnd
  = {| tokens := map dropCR raw1; scanErr := Some ErrTooLong |}.
Proof.
  induction 1 as [|r raw1 Hr _ IH]; intros Hl; cbn [app scanLines map].
  - now rewrite Hl.
  - unfold short in Hr. now rewrite Hr, IH.
Qed.

Lemma tooLong_nonempty (l : str) : tooLong l = true -> l <> [].
Proof. intros H ->. discriminate H. Qed.

Lemma tokens_noLF (raw : list str) (atEnd : option Error) :
  Forall noLF raw -> Forall noLF (tokens (scanLines raw atEnd)).
Proof.
  induction 1 as [|l raw Hl _ IH]; simpl; [constructor|].
  destruct (tooLong l); simpl; [constructor|].
  constructor; [now apply dropCR_noLF | exact IH].
Qed.

(** Scanning and writing the lines back normalizes the line endings. *)
Lemma unlines_dropCR_rawLines (data : str) :
  unlines (map dropCR (rawLines data)) = normalizeEOL data.
Proof.
  induction data as [|c rest IH]; [reflexivity|].
  cbn [rawLines normalizeEOL].
  destruct (Ascii.eqb c LF) eqn:Ec.
  - cbn [map]. rewrite unlines_cons, IH. reflexivity.
  - destruct rest as [|d rest'].
    + cbn [rawLines map]. rewrite unlines_cons, dropCR_one.
      now destruct (Ascii.eqb c CR).
    + revert IH. cbn [rawLines].
      destruct (Ascii.eqb d LF) eqn:Ed.
      * cbn [map]. rewrite !unlines_cons, dropCR_one, dropCR_nil.
        intros IH. destruct (Ascii.eqb c CR); cbn [andb app].
        -- exact IH.
        -- now rewrite <- IH.
      * rewrite andb_false_r.
        destruct (rawLines rest') as [|l ls]; cbn [map];
          rewrite !unlines_cons, dropCR_cons; intros IH;
          cbn [app]; now rewrite <- IH.
Qed.

(** *** [strings.TrimRight] and [strings.TrimSuffix] with a line feed *)

Lemma TrimRight_snoc_LF (s : str) : TrimRight (s ++ [LF]) [LF] = TrimRight s [LF].
Proof. unfold TrimRight. now rewrite rev_app_distr. Qed.

Lemma TrimRight_snoc_other (s : str) c :
  c <> LF -> TrimRight (s ++ [c]) [LF] = s ++ [c].
Proof.
  intros H. unfold TrimRight. rewrite rev_app_distr. cbn [rev app dropWhile].
  unfold inCutset. cbn [existsb]. rewrite eqb_LF_false by assumption.
  cbn [orb]. change (c :: rev s) with ([c] ++ rev s).
  now rewrite rev_app_distr, rev_involutive.
Qed.

Lemma HasSuffix_snoc (s : str) c : HasSuffix (s ++ [c]) [LF] = Ascii.eqb c LF.
Proof.
  unfold HasSuffix. rewrite rev_app_distr. cbn. apply andb_true_r.
Qed.

(** Nothing is trimmed from a text that does not end in a line feed. *)
Lemma TrimRight_open (s : str) : HasSuffix s [LF] = false -> TrimRight s [LF] = s.
Proof.
  destruct s as [|c s] using rev_ind; [reflexivity|].
  rewrite HasSuffix_snoc. intros H.
  apply TrimRight_snoc_other. now apply Ascii.eqb_neq.
Qed.

Lemma HasSuffix_app_nonempty (p s : str) :
  s <> [] -> HasSuffix (p ++ s) [LF] = HasSuffix s [LF].
Proof.
  destruct s as [|c s] using rev_ind; [congruence|]. intros _.
  now rewrite app_assoc, !HasSuffix_snoc.
Qed.

Lemma TrimSuffix_snoc_LF (s : str) : TrimSuffix (s ++ [LF]) [LF] = s.
Proof.
  unfold TrimSuffix. rewrite HasSuffix_snoc. cbn.
  rewrite length_app. cbn. replace (List.length s + 1 - 1) with (List.length s) by lia.
  rewrite firstn_app, Nat.sub_diag, firstn_all. cbn. apply app_nil_r.
Qed.

Lemma TrimSuffix_open (s : str) : HasSuffix s [LF] = false -> TrimSuffix s [LF] = s.
Proof. unfold TrimSuffix. now intros ->. Qed.

(** ** Runs *)

Lemma bind_ret_l {A B : Type} (a : A) (k : A -> Run B) : bind (ret a) k = k a.
Proof. unfold bind, ret. now destruct (k a). Qed.

Lemma bind_Ret {A B : Type} w (a : A) (k : A -> Run B) w' b :
  k a = Ret w' b -> bind (Ret w a) k = Ret (w ++ w') b.
Proof. unfold bind. now intros ->. Qed.

(** ** Files without directives *)

Section Plain.

Variable os : OS.

Lemma processLine_copy pip filePath line :
  isDirective line = false ->
  processLine os pip filePath line = ret (Emit (line ++ [LF])).
Proof. unfold processLine, isDirective. now intros ->. Qed.

Lemma scanLoop_copy pip filePath lines output :
  Forall (fun l => isDirective l = false) lines ->
  scanLoop os pip filePath lines output = ret (inl (output ++ unlines lines)).
Proof.
  intros H. revert output.
  induction H as [|l lines Hl _ IH]; intros output; cbn [scanLoop].
  - now rewrite app_nil_r.
  - rewrite processLine_copy by exact Hl. rewrite bind_ret_l, IH.
    now rewrite unlines_cons, <- !app_assoc.
Qed.

Lemma scanLines_scanErr_None raw atEnd :
  scanErr (scanLines raw atEnd) = None -> Forall short raw /\ atEnd = None.
Proof.
  induction raw as [|l raw IH]; cbn [scanLines].
  - now split.
  - destruct (tooLong l) eqn:E; cbn [scanErr]; [discriminate|].
    intros H. destruct (IH H). split; [now constructor | assumption].
Qed.

(** A file without directives that is read to its end. *)
Lemma processFile_plain n pip filePath rootDir isRoot absPath file :
  Abs os filePath = inl absPath ->
  Open os absPath = inl file ->
  scanErr (NewScanner file) = None ->
  Forall (fun l => isDirective l = false) (tokens (NewScanner file)) ->
  let rel := markerPath os filePath rootDir absPath in
  let body := normalizeEOL (contents file) in
  processFileWith os pip filePath rootDir isRoot
  = ret (if isRoot then body
         else TrimRight (startMarker rel ++ body) [LF] ++ endMarker rel, None)
  /\ processFile os (S n) filePath rootDir isRoot
     = processFileWith os
         (processIncludePathWith os (fun p => processFile os n p rootDir false))
         filePath rootDir isRoot.
Proof.
  intros HA HO HE HD rel body. split; [|reflexivity].
  unfold processFileWith. rewrite HA, HO.
  rewrite scanLoop_copy by exact HD. rewrite bind_ret_l, HE.
  fold rel.
  assert (Hb : unlines (tokens (NewScanner file)) = body).
  { unfold NewScanner in *. apply scanLines_scanErr_None in HE.
    destruct HE as [Hs He]. rewrite scanLines_short by exact Hs.
    cbn [tokens]. apply unlines_dropCR_rawLines. }
  rewrite Hb. now destruct isRoot.
Qed.

(** C4, amended. A root file without directive lines that is read without
    error and has no line of 65536 bytes or more expands to its own content
    with the line endings normalized to a line feed: the carriage return of
    a CR LF pair or at the end of the input is dropped, and a last line
    without a line feed gets one. *)
Theorem root_without_directives_normalized n filePath rootDir absPath file :
  Abs os filePath = inl absPath ->
  Open os absPath = inl file ->
  readErr file = None ->
  Forall short (rawLines (contents file)) ->
  Forall (fun l => isDirective l = false) (tokens (NewScanner file)) ->
  processFile os (S n) filePath rootDir true
  = Ret [] (normalizeEOL (contents file), None).
Proof.
  intros HA HO HR HS HD.
  destruct (processFile_plain n
              (processIncludePathWith os
                 (fun p => processFile os n p rootDir false))
              filePath rootDir true HA HO) as [H1 H2]; [|exact HD|].
  - unfold NewScanner. rewrite scanLines_short by exact HS. exact HR.
  - rewrite H2. exact H1.
Qed.

(** A line that fills the scanner's buffer ends the reading of a file with
    an error, whatever the lines before it gave. *)
Lemma processFile_line_too_long
    n filePath rootDir isRoot absPath file (pre : list str) (l : str)
    (post : list str) :
  Abs os filePath = inl absPath ->
  Open os absPath = inl file ->
  rawLines (contents file) = pre ++ l :: post ->
  Forall short pre -> tooLong l = true ->
  Forall (fun l => isDirective l = false) (map dropCR pre) ->
  processFile os (S n) filePath rootDir isRoot
  = Ret [] ([], Some (ErrReadFile filePath ErrTooLong)).
Proof.
  intros HA HO HR HS HT HD. cbn [processFile]. unfold processFileWith.
  rewrite HA, HO. cbv zeta. unfold NewScanner. rewrite HR.
  rewrite scanLines_stops by assumption. cbn [tokens scanErr].
  rewrite scanLoop_copy by exact HD. now rewrite bind_ret_l.
Qed.

(** Text whose lines are already in the scanner's form. *)
Lemma normalizeEOL_unlines (ls : list str) :
  Forall noLF ls -> Forall keepsCR ls -> normalizeEOL (unlines ls) = unlines ls.
Proof.
  intros HL HC. rewrite <- unlines_dropCR_rawLines.
  pose proof (rawLines_unlines [] HL) as E.
  rewrite app_nil_r in E. cbn [rawLines] in E. rewrite app_nil_r in E.
  rewrite E. f_equal. clear E HL.
  induction HC as [|l ls Hl _ IH]; [reflexivity|]. cbn [map].
  now rewrite Hl, IH.
Qed.

(** C6, amended. Root expansion returns unchanged every text without
    directive lines in which each line is ended by a line feed, no line
    ends in a carriage return and no line fills the scanner's buffer. *)
Theorem expansion_idempotent_on_plain_lines
    n filePath rootDir absPath (ls : list str) :
  Abs os filePath = inl absPath ->
  Open os absPath = inl {| contents := unlines ls; readErr := None |} ->
  Forall noLF ls -> Forall keepsCR ls -> Forall short ls ->
  Forall (fun l => isDirective l = false) ls ->
  processFile os (S n) filePath rootDir true = Ret [] (unlines ls, None).
Proof.
  intros HA HO HL HC HS HD.
  assert (HR : rawLines (unlines ls) = ls).
  { pose proof (rawLines_unlines [] HL) as E.
    rewrite !app_nil_r in E. exact E. }
  assert (HT : NewScanner {| contents := unlines ls; readErr := None |}
               = {| tokens := ls; scanErr := None |}).
  { unfold NewScanner. cbn [contents readErr]. rewrite HR.
    rewrite scanLines_short by exact HS. f_equal.
    clear - HC. induction HC as [|l ls Hl _ IH]; [reflexivity|].
    cbn [map]. now rewrite Hl, IH. }
  destruct (processFile_plain n
              (processIncludePathWith os
                 (fun p => processFile os n p rootDir false))
              filePath rootDir true HA HO) as [H1 H2].
  - now rewrite HT.
  - now rewrite HT.
  - rewrite H2, H1. cbn [contents]. now rewrite normalizeEOL_unlines.
Qed.

(** C9, amended. An empty file included as a non-root file expands to its
    two marker lines and nothing between them, when the path shown in the
    markers does not end in a line feed. *)
Theorem empty_include_two_markers n filePath rootDir absPath :
  Abs os filePath = inl absPath ->
  Open os absPath = inl {| contents := []; readErr := None |} ->
  HasSuffix (markerPath os filePath rootDir absPath) [LF] = false ->
  let rel := markerPath os filePath rootDir absPath in
  processFile os (S n) filePath rootDir false
  = Ret [] (lit "# START " ++ rel ++ [LF] ++ lit "# END " ++ rel ++ [LF], None).
Proof.
  intros HA HO HS rel.
  destruct (processFile_plain n
              (processIncludePathWith os
                 (fun p => processFile os n p rootDir false))
              filePath rootDir false HA HO) as [H1 H2];
    [reflexivity | constructor |].
  rewrite H2, H1. cbn [contents normalizeEOL]. fold rel. unfold ret.
  do 2 f_equal. rewrite app_nil_r. unfold startMarker, endMarker.
  rewrite app_assoc, TrimRight_snoc_LF.
  rewrite TrimRight_open.
  - rewrite <- !app_assoc. reflexivity.
  - fold rel in HS. clearbody rel. destruct rel as [|c r]; [reflexivity|].
    rewrite HasSuffix_app_nonempty by discriminate. exact HS.
Qed.

End Plain.

(** ** The sample disks *)

Lemma root_without_directives_normalized_witness :
  processFile Sample.os 1 (lit "/r/crlf.txt") Sample.root true
  = Ret [] (lit "x" ++ [LF], None).
Proof.
  apply (@root_without_directives_normalized Sample.os 0 (lit "/r/crlf.txt")
           Sample.root (lit "/r/crlf.txt")
           {| contents := lit "x" ++ [CR; LF]; readErr := None |});
    [reflexivity | reflexivity | reflexivity | | ]; repeat constructor.
Defined.

Lemma noLF_repeat_x n : noLF (repeat "x"%char n).
Proof. intros H. apply repeat_spec in H. discriminate H. Qed.

Lemma isDirective_x (t : str) : isDirective ("x"%char :: t) = false.
Proof.
  unfold isDirective, TrimSpace.
  assert (E : trimLeftSpace ("x"%char :: t) = "x"%char :: t)
    by (destruct t as [|c2 [|c3 t3]]; reflexivity).
  rewrite E.
  destruct (trimRightSpace_prefix ("x"%char :: t)) as [suf Hs].
  destruct (HasPrefix (trimRightSpace ("x"%char :: t)) (lit "#include:")) eqn:H;
    [|reflexivity].
  apply HasPrefix_app_l with (r := suf) in H. rewrite <- Hs in H.
  discriminate H.
Qed.

(** C4 as stated fails.  The file [/r/long.txt] is one line of 65536 bytes
    and its line feed; the line is no directive; the scanner gives up with
    [ErrTooLong] and the expansion of the file as a root file returns that
    error and no text. *)
Lemma long_line_not_returned :
  Open Sample.long (lit "/r/long.txt")
  = inl {| contents := Sample.longLine ++ [LF]; readErr := None |}
  /\ rawLines (Sample.longLine ++ [LF]) = [Sample.longLine]
  /\ List.length Sample.longLine = N.to_nat 65536
  /\ isDirective Sample.longLine = false
  /\ processFile Sample.long 1 (lit "/r/long.txt") Sample.root true
     = Ret [] ([], Some (ErrReadFile (lit "/r/long.txt") ErrTooLong)).
Proof.
  assert (HR : rawLines (Sample.longLine ++ [LF]) = [Sample.longLine])
    by (apply (rawLines_line (l := Sample.longLine) []), noLF_repeat_x).
  split; [reflexivity|]. split; [exact HR|].
  split; [apply repeat_length|]. split.
  - unfold Sample.longLine. change 65536%N with (N.succ 65535).
    rewrite N2Nat.inj_succ. apply isDirective_x.
  - apply (@processFile_line_too_long Sample.long 0 (lit "/r/long.txt")
             Sample.root true (lit "/r/long.txt")
             {| contents := Sample.longLine ++ [LF]; readErr := None |}
             [] Sample.longLine []);
      [reflexivity | reflexivity | exact HR | constructor | | constructor].
    unfold tooLong, Sample.longLine. rewrite repeat_length, N2Nat.id.
    reflexivity.
Qed.

Lemma expansion_idempotent_on_plain_lines_witness :
  processFile Sample.os 1 (lit "/r/foo.txt") Sample.root true
  = Ret [] (unlines [lit "a"; lit "b"], None).
Proof.
  apply (@expansion_idempotent_on_plain_lines Sample.os 0 (lit "/r/foo.txt")
           Sample.root (lit "/r/foo.txt") [lit "a"; lit "b"]);
    [reflexivity | reflexivity | | | | ];
    repeat constructor; intros H; vm_compute in H; intuition discriminate.
Defined.

(** C6 as stated fails.  A text without directive lines whose last line has
    no line feed comes back with one more byte; and the expansion of
    [/r/cr.txt], itself free of directive lines, is the content of
    [/r/crlf.txt], whose expansion differs from it. *)
Lemma expansion_not_idempotent :
  (Open Sample.os (lit "/r/noeol.txt")
   = inl {| contents := lit "a"; readErr := None |}
   /\ Forall (fun l => isDirective l = false) (rawLines (lit "a"))
   /\ processFile Sample.os 1 (lit "/r/noeol.txt") Sample.root true
      = Ret [] (lit "a" ++ [LF], None)
   /\ lit "a" ++ [LF] <> lit "a")
  /\ (processFile Sample.os 1 (lit "/r/cr.txt") Sample.root true
      = Ret [] (lit "x" ++ [CR; LF], None)
      /\ Open Sample.os (lit "/r/crlf.txt")
         = inl {| contents := lit "x" ++ [CR; LF]; readErr := None |}
      /\ Forall (fun l => isDirective l = false)
                (rawLines (lit "x" ++ [CR; LF]))
      /\ processFile Sample.os 1 (lit "/r/crlf.txt") Sample.root true
         = Ret [] (lit "x" ++ [LF], None)
      /\ lit "x" ++ [LF] <> lit "x" ++ [CR; LF]).
Proof.
  repeat split; try reflexivity; try discriminate; repeat constructor.
Qed.

Lemma empty_include_two_markers_witness :
  processFile Sample.os 1 (lit "/r/empty.txt") Sample.root false
  = Ret [] (lit "# START empty.txt" ++ [LF] ++ lit "# END empty.txt" ++ [LF],
            None).
Proof.
  apply (@empty_include_two_markers Sample.os 0 (lit "/r/empty.txt")
           Sample.root (lit "/r/empty.txt"));
    reflexivity.
Defined.

(** C9 as stated fails for a file whose name ends in a line feed: the line
    feeds that end the START line are trimmed together with those of the
    body. *)
Lemma empty_include_markers_newline_path :
  Open Sample.os (lit "/r/e" ++ [LF])
  = inl {| contents := []; readErr := None |}
  /\ markerPath Sample.os (lit "/r/e" ++ [LF]) Sample.root (lit "/r/e" ++ [LF])
     = lit "e" ++ [LF]
  /\ processFile Sample.os 1 (lit "/r/e" ++ [LF]) Sample.root false
     = Ret [] (lit "# START e" ++ [LF] ++ lit "# END e" ++ [LF; LF], None)
  /\ lit "# START e" ++ [LF] ++ lit "# END e" ++ [LF; LF]
     <> lit "# START " ++ (lit "e" ++ [LF]) ++ [LF]
        ++ lit "# END " ++ (lit "e" ++ [LF]) ++ [LF].
Proof.
  repeat split; try reflexivity. discriminate.
Qed.

(** *** Include cycles *)

Lemma self_include_step (pf : str -> Run GoResult) isRoot :
  pf Sample.template = OutOfFuel ->
  processFileWith Sample.cyclic (processIncludePathWith Sample.cyclic pf)
    Sample.template Sample.root isRoot = OutOfFuel.
Proof.
  intros H. cbv in H. cbv. rewrite H. reflexivity.
Qed.

Lemma self_include_diverges fuel isRoot :
  processFile Sample.cyclic fuel Sample.template Sample.root isRoot = OutOfFuel.
Proof.
  revert isRoot. induction fuel as [|n IH]; intros isRoot; [reflexivity|].
  cbn [processFile]. apply self_include_step. apply IH.
Qed.

Lemma ping_step (pf : str -> Run GoResult) isRoot :
  pf (lit "/r/pong.yaml") = OutOfFuel ->
  processFileWith Sample.cyclic (processIncludePathWith Sample.cyclic pf)
    (lit "/r/ping.yaml") Sample.root isRoot = OutOfFuel.
Proof.
  intros H. cbv in H. cbv. rewrite H. reflexivity.
Qed.

Lemma pong_step (pf : str -> Run GoResult) isRoot :
  pf (lit "/r/ping.yaml") = OutOfFuel ->
  processFileWith Sample.cyclic (processIncludePathWith Sample.cyclic pf)
    (lit "/r/pong.yaml") Sample.root isRoot = OutOfFuel.
Proof.
  intros H. cbv in H. cbv. rewrite H. reflexivity.
Qed.

Lemma mutual_include_diverges fuel :
  forall isRoot,
    processFile Sample.cyclic fuel (lit "/r/ping.yaml") Sample.root isRoot
    = OutOfFuel
    /\ processFile Sample.cyclic fuel (lit "/r/pong.yaml") Sample.root isRoot
       = OutOfFuel.
Proof.
  induction fuel as [|n IH]; intros isRoot; [split; reflexivity|].
  cbn [processFile]. split.
  - apply ping_step. apply (IH false).
  - apply pong_step. apply (IH false).
Qed.

(** C2, on the code.  The expansion of a template that includes itself
    returns for no amount of fuel, and neither does [main] on its
    directory, nor the expansion of two files that include each other: the
    recursion of [processFile] and [processIncludePath] does not end. *)
Theorem include_cycle_never_returns fuel :
  processFile Sample.cyclic fuel Sample.template Sample.root true = OutOfFuel
  /\ main Sample.cyclic fuel [lit "expander"; Sample.root] = OutOfFuel
  /\ processFile Sample.cyclic fuel (lit "/r/ping.yaml") Sample.root true
     = OutOfFuel.
Proof.
  split; [apply self_include_diverges|]. split.
  - pose proof (self_include_diverges fuel true) as H.
    unfold main. 
    change (Stat Sample.cyclic Sample.root) with
      (@inl FileInfo Error {| IsDir := true |}).
    cbn [IsDir negb].
    change (Join Sample.cyclic Sample.root (lit "cloud-init.tmpl.yaml"))
      with Sample.template.
    change (Stat Sample.cyclic Sample.template) with
      (@inl FileInfo Error {| IsDir := false |}).
    cbv iota beta. rewrite H. reflexivity.
  - apply mutual_include_diverges.
Qed.

(** ** The two functions and their callers *)

Lemma bind_Ret_inv {A B : Type} (m : Run A) (k : A -> Run B) w b :
  bind m k = Ret w b ->
  exists w1 a w2, m = Ret w1 a /\ k a = Ret w2 b /\ w = w1 ++ w2.
Proof.
  unfold bind. destruct m as [w1 a| |]; try discriminate.
  destruct (k a) as [w2 b'| |] eqn:E; try discriminate.
  intros H. injection H as <- <-. now exists w1, a, w2.
Qed.

Section Calls.

Variable os : OS.

(** A directive line: nothing is emitted for an empty path, and otherwise
    the include is resolved and re-indented. *)
Lemma processLine_directive pip filePath line :
  isDirective line = true ->
  processLine os pip filePath line
  = if isEmpty (includePathOf line) then Ret [EmptyInclude filePath] Skip
    else r <- pip (Join os (Dir os filePath) (includePathOf line)) ;;
         match r with
         | (_, Some err) =>
             ret (Abort (ErrInclude (includePathOf line) filePath err))
         | (includedContent, None) =>
             ret (Emit (indentBlock (indentationOf line) includedContent))
         end.
Proof.
  intros H. destruct (directive_slice line H) as [Hs _].
  unfold processLine. unfold isDirective in H. rewrite H, Hs.
  fold (includePathOf line). now destruct (isEmpty (includePathOf line)).
Qed.


Lemma processLine_emit pip filePath line w content :
  isDirective line = true ->
  includePathOf line <> [] ->
  pip (Join os (Dir os filePath) (includePathOf line)) = Ret w (content, None) ->
  processLine os pip filePath line
  = Ret w (Emit (indentBlock (indentationOf line) content)).
Proof.
  intros H Hne Hp. rewrite processLine_directive by exact H.
  destruct (includePathOf line) eqn:E; [congruence|]. cbn [isEmpty].
  rewrite Hp. cbn. now rewrite app_nil_r.
Qed.



(** An error of [processFile] comes with the empty string. *)
Lemma processFileWith_error_no_text pip filePath rootDir isRoot w text err :
  processFileWith os pip filePath rootDir isRoot = Ret w (text, Some err) ->
  text = [].
Proof.
  unfold processFileWith.
  destruct (Abs os filePath) as [absPath|e]; [|intros H; now injection H].
  destruct (Open os absPath) as [file|e]; [|intros H; now injection H].
  intros H. apply bind_Ret_inv in H. destruct H as [w1 [r [w2 [_ [H _]]]]].
  destruct r as [output|e]; [|now injection H].
  destruct (scanErr (NewScanner file)); [now injection H|].
  destruct isRoot; discriminate H.
Qed.

Lemma processFile_error_no_text fuel filePath rootDir isRoot w text err :
  processFile os fuel filePath rootDir isRoot = Ret w (text, Some err) ->
  text = [].
Proof.
  destruct fuel; [discriminate|]. apply processFileWith_error_no_text.
Qed.

Lemma processIncludePath_error_no_text fuel path rootDir w text err :
  processIncludePath os fuel path rootDir = Ret w (text, Some err) ->
  text = [].
Proof.
  unfold processIncludePath, processIncludePathWith.
  destruct (Stat os path) as [info|e]; [|intros H; now injection H].
  destruct (IsDir info); [|apply processFile_error_no_text].
  intros H. apply bind_Ret_inv in H. destruct H as [w1 [r [w2 [_ [H _]]]]].
  destruct r; [discriminate H | now injection H].
Qed.


(** *** More fuel changes no result *)

Lemma processLine_extends pip pip' filePath line w r :
  extends pip pip' ->
  processLine os pip filePath line = Ret w r ->
  processLine os pip' filePath line = Ret w r.
Proof.
  intros He. unfold processLine.
  destruct (HasPrefix (TrimSpace line) (lit "#include:")); [|easy].
  destruct (sliceTo line (Index line (lit "#"))); [|easy].
  destruct (isEmpty _); [easy|].
  intros H. apply bind_Ret_inv in H. destruct H as [w1 [a [w2 [Hp [Hk ->]]]]].
  rewrite (He _ _ _ Hp). now apply bind_Ret.
Qed.

Lemma scanLoop_extends pip pip' filePath lines output w r :
  extends pip pip' ->
  scanLoop os pip filePath lines output = Ret w r ->
  scanLoop os pip' filePath lines output = Ret w r.
Proof.
  intros He. revert output w.
  induction lines as [|l lines IH]; intros output w; [easy|].
  cbn [scanLoop]. intros H.
  apply bind_Ret_inv in H. destruct H as [w1 [a [w2 [Hp [Hk ->]]]]].
  rewrite (processLine_extends _ _ He Hp). apply bind_Ret.
  destruct a; auto.
Qed.

Lemma processFileWith_extends pip pip' filePath rootDir isRoot w r :
  extends pip pip' ->
  processFileWith os pip filePath rootDir isRoot = Ret w r ->
  processFileWith os pip' filePath rootDir isRoot = Ret w r.
Proof.
  intros He. unfold processFileWith.
  destruct (Abs os filePath) as [absPath|e]; [|easy].
  destruct (Open os absPath) as [file|e]; [|easy].
  intros H. apply bind_Ret_inv in H. destruct H as [w1 [a [w2 [Hp [Hk ->]]]]].
  rewrite (scanLoop_extends _ _ _ He Hp). now apply bind_Ret.
Qed.

Lemma walkLoop_extends pf pf' entries dirContent w r :
  extends pf pf' ->
  walkLoop pf entries dirContent = Ret w r ->
  walkLoop pf' entries dirContent = Ret w r.
Proof.
  intros He. revert dirContent w.
  induction entries as [|e entries IH]; intros c w; [easy|].
  cbn [walkLoop]. destruct (walkErr e); [easy|].
  destruct (negb (IsDir (walkInfo e))); [|apply IH].
  intros H. apply bind_Ret_inv in H. destruct H as [w1 [a [w2 [Hp [Hk ->]]]]].
  rewrite (He _ _ _ Hp). apply bind_Ret.
  destruct a as [fileContent [err|]]; auto.
Qed.

Lemma processIncludePathWith_extends pf pf' :
  extends pf pf' ->
  extends (processIncludePathWith os pf) (processIncludePathWith os pf').
Proof.
  intros He path w r. unfold processIncludePathWith.
  destruct (Stat os path) as [info|e]; [|easy].
  destruct (IsDir info); [|apply He].
  intros H. apply bind_Ret_inv in H. destruct H as [w1 [a [w2 [Hp [Hk ->]]]]].
  rewrite (walkLoop_extends _ _ He Hp). now apply bind_Ret.
Qed.

Lemma processFile_fuel_S fuel :
  forall filePath rootDir isRoot w r,
    processFile os fuel filePath rootDir isRoot = Ret w r ->
    processFile os (S fuel) filePath rootDir isRoot = Ret w r.
Proof.
  induction fuel as [|n IH]; intros filePath rootDir isRoot w r; [discriminate|].
  intros H. cbn [processFile] in *.
  revert H. apply processFileWith_extends.
  apply processIncludePathWith_extends.
  intros p w' a. apply IH.
Qed.

Lemma processFile_fuel_le fuel fuel' filePath rootDir isRoot w r :
  fuel <= fuel' ->
  processFile os fuel filePath rootDir isRoot = Ret w r ->
  processFile os fuel' filePath rootDir isRoot = Ret w r.
Proof.
  induction 1 as [|m _ IH]; [easy|].
  intros H. apply processFile_fuel_S. now apply IH.
Qed.

Lemma processIncludePath_fuel_le fuel fuel' path rootDir w r :
  fuel <= fuel' ->
  processIncludePath os fuel path rootDir = Ret w r ->
  processIncludePath os fuel' path rootDir = Ret w r.
Proof.
  intros Hle. unfold processIncludePath.
  apply processIncludePathWith_extends.
  intros p w' a. now apply processFile_fuel_le.
Qed.

(** Two runs that return agree. *)
Lemma processIncludePath_deterministic fuel1 fuel2 path rootDir w1 r1 w2 r2 :
  processIncludePath os fuel1 path rootDir = Ret w1 r1 ->
  processIncludePath os fuel2 path rootDir = Ret w2 r2 ->
  w1 = w2 /\ r1 = r2.
Proof.
  intros H1 H2.
  apply processIncludePath_fuel_le with (fuel' := Nat.max fuel1 fuel2) in H1;
    [|apply Nat.le_max_l].
  apply processIncludePath_fuel_le with (fuel' := Nat.max fuel1 fuel2) in H2;
    [|apply Nat.le_max_r].
  rewrite H1 in H2. now injection H2.
Qed.

Lemma processFile_deterministic
    fuel1 fuel2 filePath rootDir isRoot w1 r1 w2 r2 :
  processFile os fuel1 filePath rootDir isRoot = Ret w1 r1 ->
  processFile os fuel2 filePath rootDir isRoot = Ret w2 r2 ->
  w1 = w2 /\ r1 = r2.
Proof.
  intros H1 H2.
  apply processFile_fuel_le with (fuel' := Nat.max fuel1 fuel2) in H1;
    [|apply Nat.le_max_l].
  apply processFile_fuel_le with (fuel' := Nat.max fuel1 fuel2) in H2;
    [|apply Nat.le_max_r].
  rewrite H1 in H2. now injection H2.
Qed.

End Calls.

(** ** Directories *)

Section Directories.

Variable os : OS.

(** A walk that succeeds has met no error and has expanded each of its
    files once, in the order of the walk. *)
Lemma walkLoop_ok pf entries dirContent w c :
  walkLoop pf entries dirContent = Ret w (inl c) ->
  Forall (fun e => walkErr e = None) entries
  /\ exists parts,
       Forall2 (fun e part => exists w', pf (walkPath e) = Ret w' (part, None))
               (filter fileEntry entries) parts
       /\ c = dirContent ++ List.concat parts.
Proof.
  revert dirContent w. induction entries as [|e entries IH]; intros d w H.
  - cbn in H. injection H as _ <-. split; [constructor|].
    exists []. split; [constructor|]. now rewrite app_nil_r.
  - cbn [walkLoop] in H. destruct (walkErr e) eqn:He; [discriminate H|].
    cbn [filter]. unfold fileEntry at 1.
    destruct (negb (IsDir (walkInfo e))).
    + apply bind_Ret_inv in H. destruct H as [w1 [a [w2 [Hp [Hk _]]]]].
      destruct a as [fileContent [err|]]; [discriminate Hk|].
      destruct (IH _ _ Hk) as [HN [parts [HF ->]]].
      split; [now constructor|].
      exists (fileContent :: parts). split.
      * constructor; [now exists w1 | exact HF].
      * cbn [List.concat]. now rewrite app_assoc.
    + destruct (IH _ _ H) as [HN HP]. split; [now constructor | exact HP].
Qed.



End Directories.


(** ** Failures *)

Section Failures.

Variable os : OS.




End Failures.


(** ** The lines of an expansion *)

Lemma flat_map_indent (indentation : str) (ls : list str) :
  flat_map (fun l => indentation ++ l ++ [LF]) ls
  = unlines (map (app indentation) ls).
Proof.
  induction ls as [|l ls IH]; [reflexivity|].
  cbn [flat_map map]. rewrite unlines_cons, IH.
  now rewrite <- !app_assoc.
Qed.

(** The block of an include, line by line. *)
Lemma indentBlock_lines (indentation content : str) :
  indentBlock indentation content
  = unlines (map (app indentation) (includedLines content) ++ [[]]).
Proof.
  unfold indentBlock, includedLines. rewrite unlines_app.
  destruct (TrimSuffix content [LF]) as [|c s]; [reflexivity|].
  cbn [isEmpty]. now rewrite flat_map_indent.
Qed.

Lemma includedLines_rescans (content : str) :
  rescans content ->
  includedLines content = map dropCR (rawLines (TrimSuffix content [LF])).
Proof.
  intros H. unfold includedLines, NewStringScanner, NewScanner.
  cbn [contents readErr]. now rewrite scanLines_short.
Qed.


Section Blocks.

Variable os : OS.

Lemma scanLoop_emitted pip filePath lines output w out :
  scanLoop os pip filePath lines output = Ret w (inl out) ->
  exists blocks,
    Forall2 (Emitted os pip filePath) lines blocks
    /\ out = output ++ unlines (List.concat blocks).
Proof.
  revert output w. induction lines as [|line lines IH]; intros output w H.
  - cbn in H. injection H as _ <-. exists []. split; [constructor|].
    now rewrite app_nil_r.
  - cbn [scanLoop] in H.
    apply bind_Ret_inv in H. destruct H as [w1 [r [w2 [Hl [Hk _]]]]].
    destruct (isDirective line) eqn:HD.
    + rewrite processLine_directive in Hl by exact HD.
      destruct (includePathOf line) as [|c t] eqn:HI; cbn [isEmpty] in Hl.
      * injection Hl as _ <-.
        destruct (IH _ _ Hk) as [blocks [HF ->]].
        exists ([] :: blocks). split; [|reflexivity].
        constructor; [now apply Emitted_skip | exact HF].
      * apply bind_Ret_inv in Hl. destruct Hl as [wa [a [wb [Hp [Hr _]]]]].
        destruct a as [content [err|]]; injection Hr as _ <-;
          [discriminate Hk|].
        destruct (IH _ _ Hk) as [blocks [HF ->]].
        rewrite <- HI in Hp.
        assert (HN : includePathOf line <> []) by (rewrite HI; discriminate).
        rewrite indentBlock_lines, <- app_assoc, <- unlines_app.
        eexists (_ :: blocks). split; [|reflexivity].
        constructor; [|exact HF].
        now apply Emitted_include with (w := wa).
    + rewrite processLine_copy in Hl by exact HD. injection Hl as _ <-.
      destruct (IH _ _ Hk) as [blocks [HF ->]].
      exists ([line] :: blocks). split.
      * constructor; [now apply Emitted_copy | exact HF].
      * cbn [List.concat app]. rewrite unlines_cons. now rewrite <- !app_assoc.
Qed.

(** A file that expands without error: its lines, block by block. *)
Lemma processFile_emitted fuel filePath rootDir isRoot absPath file w out :
  Abs os filePath = inl absPath ->
  Open os absPath = inl file ->
  processFile os (S fuel) filePath rootDir isRoot = Ret w (out, None) ->
  exists blocks,
    Forall2 (Emitted os (fun p => processIncludePath os fuel p rootDir)
                     filePath)
            (tokens (NewScanner file)) blocks
    /\ out = render isRoot (markerPath os filePath rootDir absPath)
                    (List.concat blocks).
Proof.
  intros HA HO H. cbn [processFile] in H. unfold processFileWith in H.
  rewrite HA, HO in H. cbv zeta in H.
  apply bind_Ret_inv in H. destruct H as [w1 [r [w2 [Hl [Hk _]]]]].
  destruct r as [output|err]; [|discriminate Hk].
  destruct (scanErr (NewScanner file)); [discriminate Hk|].
  destruct (scanLoop_emitted _ _ _ _ Hl) as [blocks [HF ->]].
  exists blocks. split; [exact HF|]. unfold render.
  destruct isRoot; injection Hk as _ <-; reflexivity.
Qed.





End Blocks.



(** *** Where a line of a file ends up *)

Lemma dropWhile_app_stop (f : ascii -> bool) (a b : str) c :
  f c = false -> dropWhile f (a ++ c :: b) = dropWhile f a ++ c :: b.
Proof.
  intros H. induction a as [|d a IH]; cbn [app dropWhile].
  - now rewrite H.
  - destruct (f d); [exact IH | reflexivity].
Qed.

Lemma dropWhile_suffix (f : ascii -> bool) (s : str) :
  exists pre, s = pre ++ dropWhile f s.
Proof.
  induction s as [|c s [pre IH]]; [now exists []|]. cbn [dropWhile].
  destruct (f c); [|now exists []].
  exists (c :: pre). cbn. now rewrite <- IH.
Qed.

Lemma TrimRight_prefix (s : str) : exists suf, s = TrimRight s [LF] ++ suf.
Proof.
  unfold TrimRight.
  destruct (dropWhile_suffix (inCutset [LF]) (rev s)) as [pre E].
  exists (rev pre). rewrite <- rev_app_distr, <- E. now rewrite rev_involutive.
Qed.

(** Trimming stops at a byte that is no line feed. *)
Lemma TrimRight_app_keep (x q : str) c :
  c <> LF -> TrimRight ((x ++ [c]) ++ q) [LF] = (x ++ [c]) ++ TrimRight q [LF].
Proof.
  intros H. unfold TrimRight. rewrite !rev_app_distr. cbn [rev app].
  rewrite dropWhile_app_stop.
  - rewrite rev_app_distr. cbn [rev]. now rewrite rev_involutive.
  - unfold inCutset. cbn. now rewrite eqb_LF_false.
Qed.

Lemma closed_startMarker rel : closed (startMarker rel).
Proof.
  right. exists (lit "# START " ++ rel). unfold startMarker.
  now rewrite app_assoc.
Qed.

Lemma LineBefore_In P x ls : LineBefore P x ls -> In x ls.
Proof. intros [a [b [-> _]]]. apply in_or_app. right. now left. Qed.

Lemma In_LineBefore P x ls : In x ls -> x <> [] -> LineBefore P x ls.
Proof.
  intros HI Hne. destruct (in_split _ _ HI) as [a [b ->]].
  exists a, b. split; [reflexivity | now left].
Qed.

Lemma LineBefore_app P x pre ls post :
  LineBefore P x ls -> LineBefore P x (pre ++ ls ++ post).
Proof.
  intros [a [b [-> H]]]. exists (pre ++ a), (b ++ post). split.
  - now rewrite <- !app_assoc.
  - destruct H as [H|[e [He HP]]]; [now left|].
    right. exists e. split; [apply in_or_app; now left | exact HP].
Qed.

(** The END line of a file is solid. *)
Lemma rawLines_END_solid rel :
  exists e rest, rawLines (lit "# END " ++ rel ++ [LF]) = e :: rest /\ solid e.
Proof.
  cbn [lit list_ascii_of_string app rawLines].
  cbn [Ascii.eqb Bool.eqb LF].
  destruct (rawLines _) as [|l ls].
  - eexists _, _. split; [reflexivity|]. unfold solid.
    rewrite dropCR_cons. discriminate.
  - eexists _, _. split; [reflexivity|]. unfold solid.
    rewrite dropCR_cons. discriminate.
Qed.

(** The lines of the output of an included file, up to a non-empty line
    of its body: none is lost, and a solid line follows them. *)
Lemma render_included_lines rel (p q : list str) (z : str) :
  Forall noLF (p ++ [z]) -> z <> [] ->
  exists post,
    rawLines (render false rel (p ++ z :: q))
    = (rawLines (startMarker rel) ++ p ++ [z]) ++ post
    /\ exists e, In e post /\ solid e.
Proof.
  intros HL Hne. unfold render.
  apply Forall_app in HL. destruct HL as [Hp Hz].
  inversion Hz as [|? ? Hz' _]; subst.
  rewrite unlines_app, unlines_cons.
  destruct z as [|c z0] using rev_ind; [congruence|]. clear IHz0.
  assert (Hc : c <> LF).
  { intros ->. apply Hz', in_or_app. right. now left. }
  set (S := startMarker rel ++ unlines p).
  assert (HS : closed S).
  { apply closed_app; [apply closed_startMarker | apply closed_unlines]. }
  assert (HSl : rawLines S = rawLines (startMarker rel) ++ p).
  { unfold S. rewrite rawLines_app by apply closed_startMarker.
    pose proof (rawLines_unlines [] Hp) as E. rewrite app_nil_r in E.
    rewrite E. cbn. now rewrite app_nil_r. }
  replace (startMarker rel ++ unlines p ++ (z0 ++ [c]) ++ LF :: unlines q)
    with (((S ++ z0) ++ [c]) ++ LF :: unlines q)
    by (unfold S; now rewrite <- !app_assoc).
  rewrite TrimRight_app_keep by exact Hc.
  destruct (rawLines_END_solid rel) as [e [rest [HE He]]].
  destruct (TrimRight_prefix (LF :: unlines q)) as [suf E].
  destruct (TrimRight (LF :: unlines q) [LF]) as [|d t].
  - exists (rawLines (lit "# END " ++ rel ++ [LF])). split.
    + unfold endMarker. rewrite <- !app_assoc.
      rewrite rawLines_app by exact HS. rewrite HSl.
      change (z0 ++ [c] ++ [] ++ LF :: lit "# END " ++ rel ++ [LF])
        with (z0 ++ ([c] ++ LF :: lit "# END " ++ rel ++ [LF])).
      rewrite (app_assoc z0 [c]). rewrite rawLines_line by exact Hz'.
      now rewrite <- !app_assoc.
    + exists e. rewrite HE. split; [now left | exact He].
  - injection E as <- _.
    exists (rawLines (t ++ [LF]) ++ rawLines (lit "# END " ++ rel ++ [LF])).
    split.
    + unfold endMarker. rewrite <- !app_assoc.
      rewrite rawLines_app by exact HS. rewrite HSl.
      change (z0 ++ [c] ++ (LF :: t) ++ LF :: lit "# END " ++ rel ++ [LF])
        with (z0 ++ ([c] ++ LF :: t ++ LF :: lit "# END " ++ rel ++ [LF])).
      rewrite (app_assoc z0 [c]). rewrite rawLines_line by exact Hz'.
      change (t ++ LF :: lit "# END " ++ rel ++ [LF])
        with (t ++ [LF] ++ (lit "# END " ++ rel ++ [LF])).
      rewrite (app_assoc t [LF]), rawLines_snoc_LF.
      now rewrite <- !app_assoc.
    + exists e. split; [|exact He].
      apply in_or_app. right. rewrite HE. now left.
Qed.

(** A kept line of the body of a file is a line of its output, and stays
    in the output of an included file. *)
Lemma Kept_render isRoot rel (body : list str) (y : str) :
  Forall noLF body -> Kept y body ->
  In y (rawLines (render isRoot rel body))
  /\ (isRoot = false -> StaysIn y (rawLines (render isRoot rel body))).
Proof.
  intros HL HK. destruct isRoot.
  - split; [|discriminate]. unfold render.
    pose proof (rawLines_unlines [] HL) as E. rewrite app_nil_r in E.
    rewrite E. cbn. rewrite app_nil_r. exact (LineBefore_In HK).
  - assert (HS : StaysIn y (rawLines (render false rel body))).
    { destruct HK as [a [b [-> H]]]. destruct H as [Hne|[e [He Hne]]].
      - apply Forall_app in HL. destruct HL as [Ha Hyb].
        inversion Hyb as [|? ? Hy Hb]; subst.
        destruct (@render_included_lines rel a b y) as [post [E [e [He Hs]]]];
          [apply Forall_app; split; [exact Ha | now constructor] | exact Hne |].
        rewrite E. exists (rawLines (startMarker rel) ++ a), post.
        split; [now rewrite <- !app_assoc | now left].
      - destruct (in_split _ _ He) as [b1 [b2 ->]].
        replace (a ++ y :: b1 ++ e :: b2) with ((a ++ y :: b1) ++ e :: b2)
          in * by (now rewrite <- app_assoc).
        apply Forall_app in HL. destruct HL as [Hp Heb].
        inversion Heb as [|? ? He' Hb]; subst.
        destruct (@render_included_lines rel (a ++ y :: b1) b2 e)
          as [post [E [e' [He'' Hs]]]];
          [apply Forall_app; split; [exact Hp | now constructor] | exact Hne |].
        rewrite E. exists (rawLines (startMarker rel) ++ a), (b1 ++ [e] ++ post).
        split; [now rewrite <- !app_assoc|].
        right. exists e'. split; [|exact Hs].
        apply in_or_app. right. apply in_or_app. now right. }
    split; [exact (LineBefore_In HS) | now intros _].
Qed.

(** Without its last line feed a text loses at most an empty last line. *)
Lemma rawLines_TrimSuffix (content : str) :
  exists t,
    rawLines content = rawLines (TrimSuffix content [LF]) ++ t
    /\ (t = [] \/ t = [[]]).
Proof.
  destruct (HasSuffix content [LF]) eqn:E.
  - destruct content as [|c s] using rev_ind; [discriminate E|]. clear IHs.
    rewrite HasSuffix_snoc in E. apply Ascii.eqb_eq in E. subst c.
    rewrite TrimSuffix_snoc_LF.
    destruct s as [|d s'] using rev_ind.
    + exists [[]]. split; [reflexivity | now right].
    + clear IHs'. destruct (Ascii.eqb d LF) eqn:Ed.
      * apply Ascii.eqb_eq in Ed. subst d. exists [[]].
        split; [apply rawLines_snoc_LF | now right].
      * apply Ascii.eqb_neq in Ed. exists []. split; [|now left].
        rewrite app_nil_r. clear - Ed.
        induction s' as [|e t IHt]; cbn.
        -- now rewrite eqb_LF_false.
        -- now rewrite IHt.
  - exists []. rewrite TrimSuffix_open by exact E.
    split; [now rewrite app_nil_r | now left].
Qed.

(** A line that stays in the content of an include is kept in the block
    of the directive, behind its indentation. *)
Lemma StaysIn_block (indentation content x : str) :
  StaysIn x (rawLines content) -> rescans content -> keepsCR x ->
  Kept (indentation ++ x)
       (map (app indentation) (includedLines content) ++ [[]]).
Proof.
  intros [a [b [E H]]] HR HK.
  rewrite (includedLines_rescans HR).
  destruct (rawLines_TrimSuffix content) as [t [Et Ht]].
  assert (HT : exists b', rawLines (TrimSuffix content [LF]) = a ++ x :: b'
                          /\ (x <> [] \/ exists e, In e b' /\ solid e)).
  { destruct Ht as [->| ->].
    - rewrite app_nil_r in Et. exists b. now rewrite <- Et, E.
    - rewrite E in Et. destruct H as [Hne|[e [He Hs]]].
      + destruct b as [|y b] using rev_ind.
        * change (a ++ [x]) with (a ++ [x]) in Et.
          apply app_inj_tail in Et. destruct Et as [_ Ex]. congruence.
        * clear IHb. exists b.
          change (a ++ x :: b ++ [y]) with (a ++ (x :: b) ++ [y]) in Et.
          rewrite app_assoc in Et. apply app_inj_tail in Et.
          destruct Et as [<- _]. split; [reflexivity | now left].
      + destruct b as [|y b] using rev_ind; [contradiction He|]. clear IHb.
        change (a ++ x :: b ++ [y]) with (a ++ (x :: b) ++ [y]) in Et.
        rewrite app_assoc in Et. apply app_inj_tail in Et.
        destruct Et as [<- Ey]. subst y. exists b. split; [reflexivity|].
        right. exists e. split; [|exact Hs].
        apply in_app_or in He. destruct He as [He|[Ee|[]]]; [exact He|].
        subst e. exfalso. now apply Hs. }
  destruct HT as [b' [-> H']].
  rewrite !map_app. cbn [map]. rewrite HK.
  exists (map (app indentation) (map dropCR a)),
         (map (app indentation) (map dropCR b') ++ [[]]).
  split; [now rewrite <- app_assoc|].
  destruct H' as [Hne|[e [He Hs]]].
  - left. now destruct indentation, x.
  - right. exists (indentation ++ dropCR e). split.
    + apply in_or_app. left. now apply in_map, in_map.
    + intros Hn. apply app_eq_nil in Hn. now apply Hs.
Qed.

Lemma Forall2_In_split {A B : Type} (R : A -> list B -> Prop) (l : list A)
    (bs : list (list B)) (x : A) :
  Forall2 R l bs -> In x l ->
  exists b pre post, R x b /\ List.concat bs = pre ++ b ++ post.
Proof.
  induction 1 as [|a b l bs Hab _ IH]; intros HI; [contradiction|].
  destruct HI as [->|HI].
  - exists b, [], (List.concat bs). now split.
  - destruct (IH HI) as [b' [pre [post [Hb E]]]].
    exists b', (b ++ pre), post. split; [exact Hb|].
    cbn. now rewrite E, <- app_assoc.
Qed.

Lemma noLF_firstn n (l : str) : noLF l -> noLF (firstn n l).
Proof.
  intros H Hin. apply H. clear H. revert n Hin.
  induction l as [|c l IH]; intros [|n]; cbn; try tauto.
  intros [Hc|Hin]; [now left | right; now apply (IH n)].
Qed.

Lemma noLF_app (a b : str) : noLF a -> noLF b -> noLF (a ++ b).
Proof.
  intros Ha Hb Hin. apply in_app_or in Hin. destruct Hin; [now apply Ha | now apply Hb].
Qed.

Lemma includedLines_noLF (content : str) : Forall noLF (includedLines content).
Proof.
  unfold includedLines, NewStringScanner, NewScanner.
  apply tokens_noLF, rawLines_noLF.
Qed.

Lemma NewScanner_noLF (file : File) : Forall noLF (tokens (NewScanner file)).
Proof. unfold NewScanner. apply tokens_noLF, rawLines_noLF. Qed.

Lemma Emitted_noLF os pip filePath line block :
  noLF line -> Emitted os pip filePath line block -> Forall noLF block.
Proof.
  intros HL [H|H1 H2|w content H1 H2 H3].
  - now constructor.
  - constructor.
  - apply Forall_app. split; [|constructor; [intros [] | constructor]].
    apply Forall_map. eapply Forall_impl; [|apply includedLines_noLF].
    intros l Hl. apply noLF_app; [|exact Hl].
    unfold indentationOf. now apply noLF_firstn.
Qed.

Lemma Forall2_Emitted_noLF os pip filePath lines blocks :
  Forall noLF lines ->
  Forall2 (Emitted os pip filePath) lines blocks ->
  Forall noLF (List.concat blocks).
Proof.
  intros HL HF. induction HF as [|l b ls bs Hlb _ IH]; [constructor|].
  inversion HL; subst. cbn. apply Forall_app. split.
  - eapply Emitted_noLF; eauto.
  - now apply IH.
Qed.

Section Nesting.

Variable os : OS.

Lemma processIncludePath_file fuel path rootDir info :
  Stat os path = inl info -> IsDir info = false ->
  processIncludePath os fuel path rootDir = processFile os fuel path rootDir false.
Proof.
  intros HS HD. unfold processIncludePath, processIncludePathWith.
  now rewrite HS, HD.
Qed.

(** A non-empty line that is no directive is a line of the output. *)
Lemma plain_line_in_output fuel path rootDir isRoot w out l :
  processFile os fuel path rootDir isRoot = Ret w (out, None) ->
  HasLine os path l -> isDirective l = false -> l <> [] ->
  In l (rawLines out).
Proof.
  intros HP [absPath [file [HA [HO HI]]]] HD Hne.
  destruct fuel as [|fuel]; [discriminate HP|].
  destruct (processFile_emitted os _ _ _ _ HA HO HP) as [blocks [HF ->]].
  assert (HN : Forall noLF (List.concat blocks))
    by (eapply Forall2_Emitted_noLF; [apply NewScanner_noLF | exact HF]).
  edestruct (@Forall2_In_split) as [b [pre [post [Hb E]]]];
    [exact HF | exact HI |].
  apply Kept_render; [exact HN|]. rewrite E. apply LineBefore_app.
  destruct Hb as [H|H1 H2|w' content H1 H2 H3]; try congruence.
  exists [], []. split; [reflexivity | now left].
Qed.

(** A line that stays in an include is, behind the indentation of the
    directive, a line of the output of the including file, and stays in it
    when that file is included in turn; the line is not to end in a
    carriage return, and no line of the include is to fill the scanner's
    buffer. *)
Lemma included_line_in_output
    fuel fuelI host rootDir isRoot w out line w' content x :
  processFile os fuel host rootDir isRoot = Ret w (out, None) ->
  HasLine os host line -> isDirective line = true ->
  includePathOf line <> [] ->
  processIncludePath os fuelI (Join os (Dir os host) (includePathOf line))
    rootDir = Ret w' (content, None) ->
  rescans content ->
  StaysIn x (rawLines content) -> keepsCR x ->
  In (indentationOf line ++ x) (rawLines out)
  /\ (isRoot = false -> StaysIn (indentationOf line ++ x) (rawLines out)).
Proof.
  intros HP [absPath [file [HA [HO HI]]]] HD HN HC HR Hx Hk.
  destruct fuel as [|fuel]; [discriminate HP|].
  destruct (processFile_emitted os _ _ _ _ HA HO HP) as [blocks [HF ->]].
  assert (HL : Forall noLF (List.concat blocks))
    by (eapply Forall2_Emitted_noLF; [apply NewScanner_noLF | exact HF]).
  edestruct (@Forall2_In_split) as [b [pre [post [Hb E]]]];
    [exact HF | exact HI |].
  apply Kept_render; [exact HL|]. rewrite E. apply LineBefore_app.
  destruct Hb as [H|H1 H2|w0 content0 H1 H2 H3]; try congruence.
  destruct (processIncludePath_deterministic os _ _ _ _ H3 HC) as [_ E'].
  injection E' as ->.
  now apply StaysIn_block.
Qed.

(** C5, amended. Where a file includes a file through a directive and that
    file includes a third through a directive of its own, every line of the
    expansion of the innermost file that is not an empty last line is a
    line of the output of the outer file behind both indentations, the
    outer one first; their lengths add up.  The expansion of the innermost
    file has its non-empty lines that are no directives.  This is for a
    line that does not end in a carriage return, behind the inner
    indentation or without it, and for expansions of the two included files
    in which no line fills the scanner's buffer. *)
Theorem nested_indentation_adds
    fuelR fuelA fuelB rootDir isRoot R lineA A lineB B x
    wR outR wA outA wB outB :
  Includes os R lineA A ->
  Includes os A lineB B ->
  processFile os fuelR R rootDir isRoot = Ret wR (outR, None) ->
  processFile os fuelA A rootDir false = Ret wA (outA, None) ->
  processFile os fuelB B rootDir false = Ret wB (outB, None) ->
  rescans outA -> rescans outB ->
  StaysIn x (rawLines outB) ->
  keepsCR x -> keepsCR (indentationOf lineB ++ x) ->
  In (indentationOf lineA ++ indentationOf lineB ++ x) (rawLines outR)
  /\ List.length (indentationOf lineA ++ indentationOf lineB)
     = List.length (indentationOf lineA) + List.length (indentationOf lineB)
  /\ forall l, HasLine os B l -> isDirective l = false -> l <> [] ->
               StaysIn l (rawLines outB).
Proof.
  intros [HlA [HdA [HnA [EA [infoA [HsA HfA]]]]]]
         [HlB [HdB [HnB [EB [infoB [HsB HfB]]]]]]
         HR HA HB HrA HrB Hx Hk Hk'.
  split; [|split; [apply length_app|]].
  - assert (H2 : StaysIn (indentationOf lineB ++ x) (rawLines outA)).
    { eapply included_line_in_output with (fuelI := fuelB) (content := outB);
        eauto.
      rewrite <- EB. erewrite processIncludePath_file by eassumption. exact HB. }
    eapply included_line_in_output with (fuelI := fuelA) (content := outA);
      eauto.
    rewrite <- EA. erewrite processIncludePath_file by eassumption. exact HA.
  - intros l Hl Hd Hne. apply In_LineBefore; [|exact Hne].
    eapply plain_line_in_output; eauto.
Qed.

(** The output of an included file whose body ends in a non-empty line. *)
Lemma render_included rel (body : list str) (y : str) c :
  c <> LF ->
  render false rel (body ++ [y ++ [c]])
  = unlines ((lit "# START " ++ rel) :: (body ++ [y ++ [c]])
             ++ [lit "# END " ++ rel]).
Proof.
  intros Hc. unfold render.
  rewrite unlines_cons, !unlines_app, !unlines_cons. cbn [unlines flat_map].
  unfold startMarker, endMarker.
  replace ((lit "# START " ++ rel ++ [LF]) ++ unlines body ++ (y ++ [c]) ++ [LF])
    with ((((lit "# START " ++ rel ++ [LF]) ++ unlines body ++ y) ++ [c]) ++ [LF])
    by (now rewrite <- !app_assoc).
  rewrite TrimRight_snoc_LF, TrimRight_snoc_other by exact Hc.
  rewrite <- !app_assoc. reflexivity.
Qed.

(** The content scanner gives back lines that are in its form. *)
Lemma includedLines_unlines (ls : list str) (y : str) :
  Forall noLF (ls ++ [y]) -> Forall short (ls ++ [y]) ->
  Forall keepsCR (ls ++ [y]) -> y <> [] ->
  includedLines (unlines (ls ++ [y])) = ls ++ [y].
Proof.
  intros HL HS HK Hne.
  assert (HR : rawLines (TrimSuffix (unlines (ls ++ [y])) [LF]) = ls ++ [y]).
  { rewrite unlines_app, unlines_cons. cbn [unlines flat_map].
    replace (unlines ls ++ y ++ [LF]) with ((unlines ls ++ y) ++ [LF])
      by (now rewrite <- app_assoc).
    rewrite TrimSuffix_snoc_LF.
    apply Forall_app in HL. destruct HL as [HL Hy]. inversion Hy; subst.
    rewrite rawLines_unlines by exact HL.
    now rewrite rawLines_last_line. }
  rewrite includedLines_rescans by (unfold rescans; now rewrite HR).
  rewrite HR. clear - HK. induction HK as [|l t Hl _ IH]; [reflexivity|].
  cbn [map]. now rewrite Hl, IH.
Qed.

Lemma tooLong_app_le (a b c : str) :
  List.length b <= List.length a -> short (a ++ c) -> short (b ++ c).
Proof.
  unfold short, tooLong. rewrite !length_app. intros Hle H.
  apply N.leb_gt in H. apply N.leb_gt. lia.
Qed.

(** C1, amended. For the directive line [  #include: foo.txt] whose target
    is a single file with the two lines [a] and [b], the block emitted in
    place of the directive is the START marker line of the target, [a],
    [b] and its END marker line, each behind the two spaces, and one empty
    line; the path shown in the markers is taken to hold no line feed, not
    to end in a carriage return, and to leave the marker lines shorter than
    the scanner's buffer. *)
Theorem include_block_carries_markers fuel filePath rootDir info absPath :
  let target := Join os (Dir os filePath) (lit "foo.txt") in
  let rel := markerPath os target rootDir absPath in
  Stat os target = inl info -> IsDir info = false ->
  Abs os target = inl absPath ->
  Open os absPath
  = inl {| contents := unlines [lit "a"; lit "b"]; readErr := None |} ->
  noLF rel -> keepsCR rel -> short (lit "# START " ++ rel) ->
  processLine os (fun p => processIncludePath os (S fuel) p rootDir) filePath
    (lit "  #include: foo.txt")
  = Ret [] (Emit (unlines [lit "  # START " ++ rel; lit "  a"; lit "  b";
                           lit "  # END " ++ rel; []])).
Proof.
  intros target rel HS HD HA HO HL HK HT.
  assert (HP : processFile os (S fuel) target rootDir false
               = Ret [] (unlines [lit "# START " ++ rel; lit "a"; lit "b";
                                  lit "# END " ++ rel], None)).
  { destruct (processFile_plain os fuel
                (processIncludePathWith os
                   (fun p => processFile os fuel p rootDir false))
                target rootDir false HA HO) as [H1 H2];
      [reflexivity | repeat constructor |].
    rewrite H2, H1. fold rel. unfold ret. do 2 f_equal.
    change (normalizeEOL _) with (unlines ([lit "a"] ++ [[] ++ ["b"%char]])).
    change (TrimRight _ _ ++ endMarker rel)
      with (render false rel ([lit "a"] ++ [[] ++ ["b"%char]])).
    rewrite render_included by discriminate. reflexivity. }
  rewrite (processLine_emit os _ filePath (lit "  #include: foo.txt")
             (w := []) (content := unlines [lit "# START " ++ rel; lit "a";
                                            lit "b"; lit "# END " ++ rel])).
  - do 2 f_equal. rewrite indentBlock_lines.
    change [lit "# START " ++ rel; lit "a"; lit "b"; lit "# END " ++ rel]
      with ([lit "# START " ++ rel; lit "a"; lit "b"]
            ++ [lit "# END " ++ rel]).
    rewrite includedLines_unlines.
    + reflexivity.
    + repeat constructor; try (intros H; cbn in H; intuition discriminate).
      * apply noLF_app; [|exact HL].
        intros H; cbn in H; intuition discriminate.
      * apply noLF_app; [|exact HL].
        intros H; cbn in H; intuition discriminate.
    + repeat constructor; try exact HT.
      apply tooLong_app_le with (a := lit "# START "); [cbn; lia | exact HT].
    + repeat constructor.
      * destruct rel as [|c r]; [reflexivity|].
        unfold keepsCR. rewrite dropCR_app by discriminate. now rewrite HK.
      * destruct rel as [|c r]; [reflexivity|].
        unfold keepsCR. rewrite dropCR_app by discriminate. now rewrite HK.
    + discriminate.
  - reflexivity.
  - discriminate.
  - change (includePathOf (lit "  #include: foo.txt")) with (lit "foo.txt").
    fold target. erewrite processIncludePath_file by eassumption. exact HP.
Qed.

End Nesting.

(** ** The sample disk: includes *)

Lemma include_block_carries_markers_witness :
  processLine Sample.os
    (fun p => processIncludePath Sample.os 1 p Sample.root) Sample.template
    (lit "  #include: foo.txt")
  = Ret [] (Emit (unlines [lit "  # START foo.txt"; lit "  a"; lit "  b";
                           lit "  # END foo.txt"; []])).
Proof.
  apply (@include_block_carries_markers Sample.os 0 Sample.template
           Sample.root {| IsDir := false |} (lit "/r/foo.txt"));
    try reflexivity.
  intros H. cbn in H. intuition discriminate.
Defined.

(** C1 as stated fails.  The target of the directive is the single file
    [/r/foo.txt] with the lines [a] and [b]; the block emitted for the
    directive is not the two indented lines and an empty line: it has the
    START and END lines of the target as well. *)
Lemma include_block_not_bare :
  Stat Sample.os (lit "/r/foo.txt") = inl {| IsDir := false |}
  /\ Open Sample.os (lit "/r/foo.txt")
     = inl {| contents := unlines [lit "a"; lit "b"]; readErr := None |}
  /\ Join Sample.os (Dir Sample.os Sample.template) (lit "foo.txt")
     = lit "/r/foo.txt"
  /\ processLine Sample.os
       (fun p => processIncludePath Sample.os 1 p Sample.root)
       Sample.template (lit "  #include: foo.txt")
     = Ret [] (Emit (unlines [lit "  # START foo.txt"; lit "  a"; lit "  b";
                              lit "  # END foo.txt"; []]))
  /\ unlines [lit "  # START foo.txt"; lit "  a"; lit "  b";
              lit "  # END foo.txt"; []]
     <> unlines [lit "  a"; lit "  b"; []]
  /\ isMarkerLine (lit "  # START foo.txt") = true
  /\ isMarkerLine (lit "  # END foo.txt") = true.
Proof.
  repeat split; try reflexivity. discriminate.
Qed.

Lemma sample_has_line path data line :
  Disk.lookup Sample.disk path = Some (Disk.RegularFile data) ->
  In line (tokens (NewStringScanner data)) ->
  HasLine Sample.os path line.
Proof.
  intros HL HI. exists path, {| contents := data; readErr := None |}.
  split; [reflexivity|]. split; [|exact HI].
  cbn [Open Sample.os Disk.mount]. now rewrite HL.
Qed.

Lemma sample_outer_includes_middle :
  Includes Sample.os (lit "/r/outer.yaml") (lit "  #include: middle.txt")
    (lit "/r/middle.txt").
Proof.
  split; [|repeat split; try reflexivity; try discriminate].
  - eapply sample_has_line; [reflexivity | cbn; tauto].
  - now exists {| IsDir := false |}.
Qed.

Lemma sample_middle_includes_inner :
  Includes Sample.os (lit "/r/middle.txt") (lit "    #include: inner.txt")
    (lit "/r/inner.txt").
Proof.
  split; [|repeat split; try reflexivity; try discriminate].
  - eapply sample_has_line; [reflexivity | cbn; tauto].
  - now exists {| IsDir := false |}.
Qed.

Lemma nested_indentation_adds_witness :
  In (lit "      key: value")
     (rawLines (Sample.text ["top:"; "  # START middle.txt"; "  items:";
                             "      # START inner.txt"; "      key: value";
                             "      # END inner.txt"; "  # END middle.txt";
                             ""; "end: true"]%string))
  /\ List.length (lit "  " ++ lit "    ") = 2 + 4
  /\ StaysIn (lit "key: value")
       (rawLines (Sample.text ["# START inner.txt"; "key: value";
                               "# END inner.txt"]%string)).
Proof.
  destruct (@nested_indentation_adds Sample.os 3 2 1 Sample.root true
              (lit "/r/outer.yaml") (lit "  #include: middle.txt")
              (lit "/r/middle.txt") (lit "    #include: inner.txt")
              (lit "/r/inner.txt") (lit "key: value")
              []
              (Sample.text ["top:"; "  # START middle.txt"; "  items:";
                            "      # START inner.txt"; "      key: value";
                            "      # END inner.txt"; "  # END middle.txt";
                            ""; "end: true"]%string)
              []
              (Sample.text ["# START middle.txt"; "items:";
                            "    # START inner.txt"; "    key: value";
                            "    # END inner.txt"; "# END middle.txt"]%string)
              []
              (Sample.text ["# START inner.txt"; "key: value";
                            "# END inner.txt"]%string))
    as [H1 [H2 H3]].
  - exact sample_outer_includes_middle.
  - exact sample_middle_includes_inner.
  - reflexivity.
  - reflexivity.
  - reflexivity.
  - repeat constructor.
  - repeat constructor.
  - apply In_LineBefore; [cbn; tauto | discriminate].
  - reflexivity.
  - reflexivity.
  - split; [exact H1|]. split; [exact H2|].
    apply H3; [|reflexivity | discriminate].
    eapply sample_has_line; [reflexivity | cbn; tauto].
Defined.

(** C5 as stated fails.  The innermost file of the sample chain ends in an
    empty line; the output of the outer file has no line made of the six
    spaces of the two indentations: the empty lines at the end of an
    included file are trimmed before its END line. *)
Lemma nested_trailing_line_lost :
  Includes Sample.os (lit "/r/outer.yaml") (lit "  #include: middle.txt")
    (lit "/r/middle.txt")
  /\ Includes Sample.os (lit "/r/middle.txt") (lit "    #include: inner.txt")
       (lit "/r/inner.txt")
  /\ indentationOf (lit "  #include: middle.txt") = lit "  "
  /\ indentationOf (lit "    #include: inner.txt") = lit "    "
  /\ HasLine Sample.os (lit "/r/inner.txt") []
  /\ processFile Sample.os 3 (lit "/r/outer.yaml") Sample.root true
     = Ret [] (Sample.text ["top:"; "  # START middle.txt"; "  items:";
                            "      # START inner.txt"; "      key: value";
                            "      # END inner.txt"; "  # END middle.txt";
                            ""; "end: true"]%string, None)
  /\ ~ In (lit "  " ++ lit "    " ++ [])
         (rawLines (Sample.text ["top:"; "  # START middle.txt"; "  items:";
                                 "      # START inner.txt";
                                 "      key: value";
                                 "      # END inner.txt";
                                 "  # END middle.txt"; "";
                                 "end: true"]%string)).
Proof.
  split; [exact sample_outer_includes_middle|].
  split; [exact sample_middle_includes_inner|].
  split; [reflexivity|]. split; [reflexivity|].
  split; [eapply sample_has_line; [reflexivity | cbn; tauto]|].
  split; [reflexivity|].
  cbn. intros H. intuition discriminate.
Qed.

(** ** An include with a line that fills the buffer

    The scanner of line 76 stops at such a line with [ErrTooLong], and the
    error is not looked at: the block of the directive ends before the
    line, and the expansion goes on as if the include had ended there. *)

Lemma includedLines_stops (pre : list str) (l : str) (post : list str) :
  Forall noLF pre -> Forall short pre -> noLF l -> tooLong l = true ->
  includedLines (unlines (pre ++ l :: post)) = map dropCR pre.
Proof.
  intros HL HS Hl Ht.
  assert (HR : exists rest,
             rawLines (TrimSuffix (unlines (pre ++ l :: post)) [LF])
             = pre ++ l :: rest).
  { rewrite unlines_app, unlines_cons.
    destruct (closed_unlines post) as [E|[u E]]; rewrite E.
    - exists []. replace (unlines pre ++ l ++ [LF])
        with ((unlines pre ++ l) ++ [LF]) by (now rewrite <- app_assoc).
      rewrite TrimSuffix_snoc_LF, rawLines_unlines by exact HL.
      now rewrite rawLines_last_line by (auto using tooLong_nonempty).
    - exists (rawLines u).
      replace (unlines pre ++ l ++ LF :: u ++ [LF])
        with ((unlines pre ++ l ++ LF :: u) ++ [LF])
        by (now rewrite <- !app_assoc).
      rewrite TrimSuffix_snoc_LF, rawLines_unlines by exact HL.
      now rewrite rawLines_line. }
  destruct HR as [rest HR].
  unfold includedLines, NewStringScanner, NewScanner. cbn [contents readErr].
  rewrite HR, scanLines_stops by assumption. reflexivity.
Qed.

Lemma long_line_truncates_include
    (os : OS) pip filePath line w (pre : list str) (l : str) (post : list str) :
  isDirective line = true ->
  includePathOf line <> [] ->
  pip (Join os (Dir os filePath) (includePathOf line))
  = Ret w (unlines (pre ++ l :: post), None) ->
  Forall noLF pre -> Forall short pre -> noLF l -> tooLong l = true ->
  processLine os pip filePath line
  = Ret w (Emit (unlines (map (app (indentationOf line)) (map dropCR pre)
                          ++ [[]]))).
Proof.
  intros HD HN HP HL HS Hl Ht.
  erewrite processLine_emit by eassumption.
  now rewrite indentBlock_lines, includedLines_stops.
Qed.

(** * Further properties of the expander *)

(** ** No run panics *)

Section NoPanic.

Variable os : OS.

Lemma processLine_no_panic pip filePath line :
  (forall p, pip p <> Panic) -> processLine os pip filePath line <> Panic.
Proof.
  intros Hp. destruct (isDirective line) eqn:HD.
  - rewrite processLine_directive by exact HD.
    destruct (isEmpty (includePathOf line)); [discriminate|].
    specialize (Hp (Join os (Dir os filePath) (includePathOf line))).
    destruct (pip _) as [w [content [err|]]| |]; cbn; congruence.
  - rewrite processLine_copy by exact HD. discriminate.
Qed.

Lemma scanLoop_no_panic pip filePath lines output :
  (forall p, pip p <> Panic) -> scanLoop os pip filePath lines output <> Panic.
Proof.
  intros Hp. revert output.
  induction lines as [|l lines IH]; intros output; [discriminate|].
  cbn [scanLoop]. pose proof (@processLine_no_panic pip filePath l Hp) as Hl.
  destruct (processLine os pip filePath l) as [w r| |]; [|congruence|discriminate].
  cbn [bind]. destruct r as [text| |err].
  - specialize (IH (output ++ text)).
    destruct (scanLoop os pip filePath lines (output ++ text)); congruence.
  - specialize (IH output).
    destruct (scanLoop os pip filePath lines output); congruence.
  - discriminate.
Qed.

Lemma processFileWith_no_panic pip filePath rootDir isRoot :
  (forall p, pip p <> Panic) ->
  processFileWith os pip filePath rootDir isRoot <> Panic.
Proof.
  intros Hp. unfold processFileWith.
  destruct (Abs os filePath) as [absPath|e]; [|discriminate].
  destruct (Open os absPath) as [file|e]; [|discriminate]. cbv zeta.
  match goal with
  | |- context [scanLoop os pip filePath ?l ?o] =>
      pose proof (@scanLoop_no_panic pip filePath l o Hp) as Hs;
      destruct (scanLoop os pip filePath l o) as [w r| |]
  end; [|congruence|discriminate].
  cbn [bind]. destruct r as [output|err]; [|discriminate].
  destruct (scanErr (NewScanner file)); [discriminate|].
  destruct isRoot; discriminate.
Qed.

Lemma walkLoop_no_panic pf entries dirContent :
  (forall p, pf p <> Panic) -> walkLoop pf entries dirContent <> Panic.
Proof.
  intros Hp. revert dirContent.
  induction entries as [|e entries IH]; intros d; [discriminate|].
  cbn [walkLoop]. destruct (walkErr e); [discriminate|].
  destruct (negb (IsDir (walkInfo e))); [|apply IH].
  specialize (Hp (walkPath e)).
  destruct (pf (walkPath e)) as [w [content [err|]]| |];
    [discriminate| |congruence|discriminate].
  cbn [bind]. specialize (IH (d ++ content)).
  destruct (walkLoop pf entries (d ++ content)); congruence.
Qed.

Lemma processIncludePathWith_no_panic pf path :
  (forall p, pf p <> Panic) -> processIncludePathWith os pf path <> Panic.
Proof.
  intros Hp. unfold processIncludePathWith.
  destruct (Stat os path) as [info|e]; [|discriminate].
  destruct (IsDir info); [|apply Hp].
  pose proof (@walkLoop_no_panic pf (Walk os path) [] Hp) as Hw.
  destruct (walkLoop pf (Walk os path) []) as [w r| |];
    [|congruence|discriminate].
  destruct r; discriminate.
Qed.

Lemma processFile_no_panic fuel :
  forall filePath rootDir isRoot,
    processFile os fuel filePath rootDir isRoot <> Panic.
Proof.
  induction fuel as [|n IH]; intros filePath rootDir isRoot; [discriminate|].
  cbn [processFile]. apply processFileWith_no_panic.
  intros p. apply processIncludePathWith_no_panic. intros q. apply IH.
Qed.

(** X1. No run of [processFile], of [processIncludePath] or of [main]
    panics: the slice [line[:strings.Index(line, "#")]] of line 51, the one
    expression of the program that can, is in range on every line the loop
    takes for a directive, in every file of every file system. *)
Theorem expander_never_panics (fuel : nat) :
  (forall filePath rootDir isRoot,
      processFile os fuel filePath rootDir isRoot <> Panic)
  /\ (forall path rootDir, processIncludePath os fuel path rootDir <> Panic)
  /\ (forall osArgs, main os fuel osArgs <> Panic).
Proof.
  split; [|split].
  - apply processFile_no_panic.
  - intros path rootDir. apply processIncludePathWith_no_panic.
    intros p. apply processFile_no_panic.
  - intros osArgs. unfold main.
    destruct osArgs as [|a [|rootDir [|b l]]]; try discriminate.
    destruct (Stat os rootDir) as [info|e]; [|discriminate].
    destruct (negb (IsDir info)); [discriminate|].
    destruct (Stat os (Join os rootDir (lit "cloud-init.tmpl.yaml")));
      [|discriminate].
    pose proof (processFile_no_panic fuel
                  (Join os rootDir (lit "cloud-init.tmpl.yaml")) rootDir true).
    destruct (processFile os fuel _ rootDir true) as [w [t [err|]]| |];
      first [discriminate | congruence].
Qed.

End NoPanic.

(** ** The form of a directive line *)

(** Facts on the bytes of the white-space runes, by arithmetic. *)
Ltac bytes :=
  unfold plainByte, space3, space2, asciiSpace, byteIs in *;
  repeat match goal with
         | |- _ = false => apply not_true_is_false; intros ?
         | |- _ /\ _ => split
         end;
  repeat progress
    (rewrite ?andb_true_iff, ?orb_true_iff, ?negb_true_iff, ?N.eqb_eq,
       ?N.leb_le, ?N.ltb_lt, ?orb_false_iff, ?andb_false_iff, ?N.eqb_neq,
       ?N.leb_gt, ?N.ltb_ge in *);
  lia.

Lemma space2_bytes c1 c2 :
  space2 c1 c2 = true -> asciiSpace c1 = false /\ asciiSpace c2 = false.
Proof. intros H. bytes. Qed.

Lemma space3_bytes c1 c2 c3 :
  space3 c1 c2 c3 = true ->
  asciiSpace c1 = false /\ space2 c1 c2 = false
  /\ asciiSpace c3 = false /\ space2 c2 c3 = false.
Proof. intros H. bytes. Qed.

Lemma plainByte_bytes c :
  plainByte c = true ->
  asciiSpace c = false
  /\ (forall x, space2 c x = false) /\ (forall x, space2 x c = false)
  /\ (forall x y, space3 c x y = false) /\ (forall x y, space3 x c y = false)
  /\ (forall x y, space3 x y c = false).
Proof. intros H. repeat split; intros; bytes. Qed.

(** The left trim removes white-space runes and stops at a plain byte. *)
Lemma trimLeftSpace_Spaces (ws x : str) :
  Spaces ws -> trimLeftSpace (ws ++ x) = trimLeftSpace x.
Proof.
  induction 1 as [|c s Hc _ IH|c1 c2 s Hc _ IH|c1 c2 c3 s Hc _ IH].
  - reflexivity.
  - cbn [app trimLeftSpace]. now rewrite Hc.
  - destruct (space2_bytes _ _ Hc) as [H1 _].
    cbn [app trimLeftSpace]. now rewrite H1, Hc.
  - destruct (space3_bytes _ _ _ Hc) as [H1 [H2 _]].
    cbn [app trimLeftSpace]. now rewrite H1, H2, Hc.
Qed.

Lemma trimLeftSpace_plain c (t : str) :
  plainByte c = true -> trimLeftSpace (c :: t) = c :: t.
Proof.
  intros H. destruct (plainByte_bytes _ H) as [H1 [H2 [_ [H3 _]]]].
  cbn [trimLeftSpace]. rewrite H1.
  destruct t as [|c2 t]; [reflexivity|]. rewrite H2.
  destruct t as [|c3 t]; [reflexivity|]. now rewrite H3.
Qed.

(** The right trim, which works from the end of the string, stops at a
    plain byte as well: what is in front of the byte plays no part. *)
Lemma trimLeftSpaceRev_plain_le (n : nat) c (q : str) :
  plainByte c = true ->
  forall r, List.length r <= n ->
    trimLeftSpaceRev (r ++ c :: q) = trimLeftSpaceRev r ++ c :: q.
Proof.
  intros H. destruct (plainByte_bytes _ H) as [H1 [H2 [H3 [H4 [H5 H6]]]]].
  induction n as [|n IH]; intros r Hn.
  - destruct r; [|simpl in Hn; lia].
    cbn [app trimLeftSpaceRev]. rewrite H1.
    destruct q as [|c2 q]; [reflexivity|]. rewrite H3.
    destruct q as [|c3 q]; [reflexivity|]. now rewrite H6.
  - destruct r as [|a r]; [apply IH; simpl; lia|].
    simpl in Hn. cbn [app trimLeftSpaceRev].
    destruct (asciiSpace a); [apply IH; lia|].
    destruct r as [|b r].
    + cbn [app]. rewrite H2.
      destruct q as [|c3 q]; [reflexivity|]. now rewrite H5.
    + simpl in Hn. cbn [app].
      destruct (space2 b a); [apply IH; lia|].
      destruct r as [|d r].
      * cbn [app]. now rewrite H4.
      * simpl in Hn. cbn [app].
        destruct (space3 d b a); [apply IH; lia | reflexivity].
Qed.

Lemma trimRightSpace_plain (a : str) c (x : str) :
  plainByte c = true ->
  trimRightSpace (a ++ c :: x) = a ++ c :: trimRightSpace x.
Proof.
  intros H. unfold trimRightSpace.
  rewrite rev_app_distr. cbn [rev]. rewrite <- app_assoc. cbn [app].
  rewrite (@trimLeftSpaceRev_plain_le (List.length (rev x)) c (rev a) H)
    by lia.
  rewrite rev_app_distr. cbn [rev]. rewrite rev_involutive.
  now rewrite <- app_assoc.
Qed.

(** White-space runes, the last one apart. *)
Lemma Spaces_app (a b : str) : Spaces a -> Spaces b -> Spaces (a ++ b).
Proof.
  induction 1; intros Hb; cbn [app];
    [assumption | apply Spaces_1 | apply Spaces_2 | apply Spaces_3]; auto.
Qed.

Lemma SpacesR_app (a b : str) : SpacesR a -> SpacesR b -> SpacesR (a ++ b).
Proof.
  intros Ha. induction 1; rewrite ?app_nil_r, ?app_assoc;
    [assumption | apply SpacesR_1 | apply SpacesR_2 | apply SpacesR_3]; auto.
Qed.

Lemma Spaces_SpacesR (s : str) : Spaces s -> SpacesR s.
Proof.
  induction 1 as [|c s Hc _ IH|c1 c2 s Hc _ IH|c1 c2 c3 s Hc _ IH].
  - constructor.
  - apply (SpacesR_app (a := [c])); [|exact IH].
    apply (SpacesR_1 (s := [])); [constructor | exact Hc].
  - apply (SpacesR_app (a := [c1; c2])); [|exact IH].
    apply (SpacesR_2 (s := [])); [constructor | exact Hc].
  - apply (SpacesR_app (a := [c1; c2; c3])); [|exact IH].
    apply (SpacesR_3 (s := [])); [constructor | exact Hc].
Qed.

(** The right trim removes the white-space runes a string ends with. *)
Lemma trimRightSpace_Spaces (x ws : str) :
  Spaces ws -> trimRightSpace (x ++ ws) = trimRightSpace x.
Proof.
  intros H. apply Spaces_SpacesR in H. unfold trimRightSpace. f_equal.
  induction H as [|s c _ IH Hc|s c1 c2 _ IH Hc|s c1 c2 c3 _ IH Hc].
  - now rewrite app_nil_r.
  - rewrite app_assoc, rev_app_distr. cbn [rev app trimLeftSpaceRev].
    now rewrite Hc.
  - destruct (space2_bytes _ _ Hc) as [_ H2].
    rewrite app_assoc, rev_app_distr. cbn [rev app trimLeftSpaceRev].
    now rewrite H2, Hc.
  - destruct (space3_bytes _ _ _ Hc) as [_ [_ [H3 H4]]].
    rewrite app_assoc, rev_app_distr. cbn [rev app trimLeftSpaceRev].
    now rewrite H3, H4, Hc.
Qed.

Lemma TrimSpace_directive (ws rest : str) :
  Spaces ws ->
  TrimSpace (ws ++ lit "#include:" ++ rest)
  = lit "#include:" ++ trimRightSpace rest.
Proof.
  intros W. unfold TrimSpace. rewrite trimLeftSpace_Spaces by exact W.
  change (lit "#include:" ++ rest) with (hash :: lit "include:" ++ rest).
  rewrite trimLeftSpace_plain by reflexivity.
  change (hash :: lit "include:" ++ rest)
    with (lit "#include" ++ ":"%char :: rest).
  now rewrite trimRightSpace_plain by reflexivity.
Qed.

Lemma indentationOf_directive (ws rest : str) :
  Spaces ws -> indentationOf (ws ++ lit "#include:" ++ rest) = ws.
Proof.
  intros W. unfold indentationOf.
  change (lit "#") with [hash].
  change (lit "#include:" ++ rest) with (hash :: lit "include:" ++ rest).
  rewrite (Index_hash ws (lit "include:" ++ rest) (Spaces_no_hash W)).
  rewrite Nat2Z.id, firstn_app, Nat.sub_diag, firstn_all. cbn [firstn].
  apply app_nil_r.
Qed.

Lemma plain_first_not_Spaces c (t : str) :
  plainByte c = true -> ~ Spaces (c :: t).
Proof.
  intros H W. destruct (plainByte_bytes _ H) as [H1 [H2 [_ [H3 _]]]].
  inversion W; subst; congruence.
Qed.

Lemma isDirective_iff (line : str) :
  isDirective line = true
  <-> exists ws rest, Spaces ws /\ line = ws ++ lit "#include:" ++ rest.
Proof.
  split.
  - intros H. destruct (directive_shape line H) as [ws [rest [E [W _]]]].
    now exists ws, rest.
  - intros [ws [rest [W ->]]]. unfold isDirective.
    rewrite TrimSpace_directive by exact W. apply HasPrefix_app.
Qed.

(** X2. The lines the loop takes for directives (lines 46 to 48) are those
    made of white-space runes, then [#include:], then anything: the marker
    is recognized behind any indentation and whatever follows it, also
    without a space or a path after the colon.  A line that begins with a
    plain byte other than [#], such as [key: #include: x], is no directive
    although it contains the marker. *)
Theorem directive_line_form :
  (forall line,
      isDirective line = true
      <-> exists ws rest, Spaces ws /\ line = ws ++ lit "#include:" ++ rest)
  /\ (forall c t,
        plainByte c = true -> c <> hash -> isDirective (c :: t) = false).
Proof.
  split; [exact isDirective_iff|].
  intros c t Hc Hh. apply not_true_is_false. intros H.
  apply isDirective_iff in H. destruct H as [ws [rest [W E]]].
  destruct ws as [|d ws].
  - cbn in E. injection E as E _. contradiction.
  - cbn [app] in E. injection E as <- _.
    exact (plain_first_not_Spaces Hc W).
Qed.

Lemma last_cons_default (t : str) :
  forall c d : ascii, last (c :: t) d = last t c.
Proof.
  induction t as [|e t IH]; intros c d; [reflexivity|].
  change (last (c :: e :: t) d) with (last (e :: t) d).
  now rewrite !IH.
Qed.

Lemma tight_ends (path : str) :
  tight path = true ->
  (exists c t, path = c :: t /\ plainByte c = true)
  /\ (exists a c, path = a ++ [c] /\ plainByte c = true).
Proof.
  destruct path as [|c t]; [discriminate|]. cbn [tight].
  rewrite andb_true_iff. intros [H1 H2]. split; [now exists c, t|].
  exists (removelast (c :: t)), (last t c). split; [|exact H2].
  rewrite <- (last_cons_default t c c).
  apply app_removelast_last. discriminate.
Qed.

Lemma TrimSpace_tight (pad path : str) :
  Spaces pad -> tight path = true -> TrimSpace (pad ++ path) = path.
Proof.
  intros W H. destruct (tight_ends _ H) as [[c [t E1]] [a [d [E2 Hd]]]].
  destruct E1 as [E1 Hc]. unfold TrimSpace.
  rewrite trimLeftSpace_Spaces by exact W.
  rewrite E1, trimLeftSpace_plain by exact Hc. rewrite <- E1, E2.
  now rewrite trimRightSpace_plain by exact Hd.
Qed.

(** X3. Writing a directive and reading it back: on the line made of the
    indentation [ws], the marker, white space, the path and more white
    space, the loop finds a directive, captures [ws] as the indentation
    (line 51) and extracts the path (line 54), with the spaces inside it
    and nothing of the white space around it; the path comes out empty when
    only white space follows the marker.  The path is any string that
    begins and ends with a plain byte. *)
Theorem directive_round_trip (ws pad path pad' : str) :
  Spaces ws -> Spaces pad -> Spaces pad' ->
  path = [] \/ tight path = true ->
  let line := ws ++ lit "#include:" ++ pad ++ path ++ pad' in
  isDirective line = true
  /\ indentationOf line = ws
  /\ includePathOf line = path.
Proof.
  intros W P P' Hp line. subst line. split; [|split].
  - unfold isDirective. rewrite TrimSpace_directive by exact W.
    apply HasPrefix_app.
  - now apply indentationOf_directive.
  - unfold includePathOf. rewrite TrimSpace_directive by exact W.
    unfold TrimPrefix. rewrite HasPrefix_app.
    rewrite skipn_app, skipn_all, Nat.sub_diag. cbn [app skipn].
    rewrite app_assoc, trimRightSpace_Spaces by exact P'.
    destruct Hp as [->|Ht].
    + rewrite app_nil_r.
      pose proof (trimRightSpace_Spaces [] P) as E. cbn [app] in E.
      rewrite E. reflexivity.
    + destruct (tight_ends _ Ht) as [_ [a [d [E Hd]]]].
      rewrite E, app_assoc, trimRightSpace_plain by exact Hd.
      change (trimRightSpace []) with (@nil ascii).
      rewrite <- app_assoc. rewrite <- E.
      now apply TrimSpace_tight.
Qed.

Lemma directive_round_trip_witness :
  let line := lit "  #include: write files/a.txt" ++ [CR] in
  isDirective line = true
  /\ indentationOf line = lit "  "
  /\ includePathOf line = lit "write files/a.txt".
Proof.
  apply (@directive_round_trip (lit "  ") (lit " ") (lit "write files/a.txt")
           [CR]).
  - repeat constructor.
  - repeat constructor.
  - repeat constructor.
  - right. reflexivity.
Defined.

(** ** Directives without a path *)

Section EmptyDirectives.

Variable os : OS.

Lemma scanLoop_empty_directives pip filePath lines output :
  Forall (fun l => isDirective l = true -> includePathOf l = []) lines ->
  scanLoop os pip filePath lines output
  = Ret (map (fun _ => EmptyInclude filePath) (filter isDirective lines))
        (inl (output
              ++ unlines (filter (fun l => negb (isDirective l)) lines))).
Proof.
  intros H. revert output.
  induction H as [|l lines Hl _ IH]; intros output.
  - cbn. now rewrite app_nil_r.
  - cbn [scanLoop filter]. destruct (isDirective l) eqn:HD; cbn [negb].
    + rewrite processLine_directive by exact HD.
      rewrite (Hl eq_refl). cbn [isEmpty bind]. now rewrite IH.
    + rewrite processLine_copy by exact HD. rewrite bind_ret_l, IH.
      now rewrite unlines_cons, <- !app_assoc.
Qed.

(** X4. A file whose directives all lack a path (lines 54 to 58): each of
    them is skipped with one warning that names the file, in the order of
    the lines, and the output is made of the other lines alone, as if the
    directives were not there.  No include is looked up, so the call
    returns at any depth of the recursion. *)
Theorem empty_directives_only_warn
    n filePath rootDir (isRoot : bool) absPath file :
  Abs os filePath = inl absPath ->
  Open os absPath = inl file ->
  scanErr (NewScanner file) = None ->
  Forall (fun l => isDirective l = true -> includePathOf l = [])
         (tokens (NewScanner file)) ->
  processFile os (S n) filePath rootDir isRoot
  = Ret (map (fun _ => EmptyInclude filePath)
             (filter isDirective (tokens (NewScanner file))))
        (render isRoot (markerPath os filePath rootDir absPath)
                (filter (fun l => negb (isDirective l))
                        (tokens (NewScanner file))), None).
Proof.
  intros HA HO HE HD. cbn [processFile]. unfold processFileWith.
  rewrite HA, HO. cbv zeta.
  rewrite scanLoop_empty_directives by exact HD. cbn [bind]. rewrite HE.
  unfold render. destruct isRoot; cbn; now rewrite app_nil_r.
Qed.

End EmptyDirectives.

Lemma empty_directives_only_warn_witness :
  processFile Sample.os 1 (lit "/r/blank.yaml") Sample.root false
  = Ret [EmptyInclude (lit "/r/blank.yaml")]
        (Sample.text ["# START blank.yaml"; "a"; "b";
                      "# END blank.yaml"]%string, None).
Proof.
  apply (@empty_directives_only_warn Sample.os 0 (lit "/r/blank.yaml")
           Sample.root false (lit "/r/blank.yaml")
           {| contents := Sample.text ["a"; "  #include:  "; "b"]%string;
              readErr := None |});
    [reflexivity | reflexivity | reflexivity |].
  repeat (constructor; [intros H; first [reflexivity | discriminate H]|]).
  constructor.
Defined.

(** ** A file as the root and as an include *)

Section Wrapped.

Variable os : OS.

(** What is in the builder before the loop stays in front. *)
Lemma scanLoop_output_prefix pip filePath lines (o x : str) :
  scanLoop os pip filePath lines (o ++ x)
  = match scanLoop os pip filePath lines x with
    | Ret w (inl out) => Ret w (inl (o ++ out))
    | r => r
    end.
Proof.
  revert x. induction lines as [|l lines IH]; intros x; [reflexivity|].
  cbn [scanLoop].
  destruct (processLine os pip filePath l) as [w r| |]; [|reflexivity..].
  cbn [bind]. destruct r as [text| |err]; [| |reflexivity].
  - rewrite <- app_assoc, IH.
    now destruct (scanLoop os pip filePath lines (x ++ text))
      as [w' [out|e]| |].
  - rewrite IH.
    now destruct (scanLoop os pip filePath lines x) as [w' [out|e]| |].
Qed.

(** X5. The expansion of a file as an include is its expansion as a root
    file between its markers: the START line in front (line 39), the line
    feeds at the end removed, the END line behind (lines 100 and 101).  The
    warnings are the same, and a call that fails as a root fails in the same
    way as an include. *)
Theorem included_is_wrapped_root fuel filePath rootDir absPath :
  Abs os filePath = inl absPath ->
  let rel := markerPath os filePath rootDir absPath in
  processFile os fuel filePath rootDir false
  = match processFile os fuel filePath rootDir true with
    | Ret w (body, None) =>
        Ret w (TrimRight (startMarker rel ++ body) [LF] ++ endMarker rel, None)
    | r => r
    end.
Proof.
  intros HA rel. destruct fuel as [|n]; [reflexivity|].
  cbn [processFile]. unfold processFileWith. rewrite HA.
  destruct (Open os absPath) as [file|e]; [|reflexivity]. cbv zeta.
  fold rel. rewrite <- (app_nil_r (startMarker rel)) at 1.
  rewrite scanLoop_output_prefix.
  match goal with
  | |- context [scanLoop os ?p filePath ?l []] =>
      destruct (scanLoop os p filePath l []) as [w [out|e]| |]
  end; try reflexivity.
  cbn [bind]. now destruct (scanErr (NewScanner file)).
Qed.

(** The same for a call that returns a text, as the proofs below use it. *)
Lemma processFile_as_include fuel filePath rootDir absPath w body :
  Abs os filePath = inl absPath ->
  processFile os fuel filePath rootDir true = Ret w (body, None) ->
  processFile os fuel filePath rootDir false
  = Ret w (render false (markerPath os filePath rootDir absPath)
                  (rawLines body), None)
  /\ Forall noLF (rawLines body).
Proof.
  intros HA H. destruct fuel as [|n]; [discriminate H|].
  cbn [processFile] in *. unfold processFileWith in *. rewrite HA in *.
  destruct (Open os absPath) as [file|e]; [|discriminate H]. cbv zeta in *.
  rewrite <- (app_nil_r (startMarker _)) at 1.
  rewrite scanLoop_output_prefix.
  apply bind_Ret_inv in H. destruct H as [w1 [r [w2 [Hl [Hk ->]]]]].
  rewrite Hl. cbn [bind].
  destruct r as [out|e]; [|discriminate Hk].
  destruct (scanErr (NewScanner file)); [discriminate Hk|].
  injection Hk as <- <-.
  destruct (scanLoop_emitted _ _ _ _ _ Hl) as [blocks [HF E]].
  cbn [app] in E. subst out.
  pose proof (Forall2_Emitted_noLF (NewScanner_noLF file) HF) as HL.
  pose proof (rawLines_unlines [] HL) as R. rewrite !app_nil_r in R.
  rewrite R. split; [reflexivity | exact HL].
Qed.

End Wrapped.

Lemma included_is_wrapped_root_witness :
  processFile Sample.os 2 Sample.template Sample.root false
  = Ret [] (Sample.text ["# START cloud-init.tmpl.yaml"; "write_files:";
                         "  # START foo.txt"; "  a"; "  b";
                         "  # END foo.txt";
                         "# END cloud-init.tmpl.yaml"]%string, None).
Proof.
  rewrite (@included_is_wrapped_root Sample.os 2 Sample.template Sample.root
             Sample.template eq_refl).
  reflexivity.
Defined.

(** ** The lines of an included file *)

(** A literal without a line feed. *)
Ltac noLF_lit :=
  let H := fresh in
  intros H; cbn in H; repeat (destruct H as [H|H]; [discriminate H|]);
  exact H.

Lemma repeat_snoc {A : Type} (x : A) k : repeat x k ++ [x] = repeat x (S k).
Proof. induction k as [|k IH]; [reflexivity|]. cbn. now rewrite IH. Qed.

(** Trimming the line feeds at the end of lines: the empty lines at the
    end go, and the last line that stays loses its line feed. *)
Lemma TrimRight_unlines (L : list str) :
  Forall noLF L ->
  (Forall (fun l => l = []) L /\ TrimRight (unlines L) [LF] = [])
  \/ (exists L0 z k,
        L = L0 ++ z :: repeat [] k /\ z <> []
        /\ TrimRight (unlines L) [LF] = unlines L0 ++ z).
Proof.
  induction L as [|y L IH] using rev_ind; intros HL.
  - left. split; [constructor | reflexivity].
  - apply Forall_app in HL. destruct HL as [HL Hy].
    inversion Hy as [|? ? Hy' _]; subst.
    rewrite unlines_app, unlines_cons. cbn [unlines flat_map].
    rewrite !app_assoc, TrimRight_snoc_LF.
    destruct y as [|c y0] using rev_ind.
    + rewrite app_nil_r. destruct (IH HL) as [[HE HT]|[L0 [z [k [E [Hz HT]]]]]].
      * left. split; [|exact HT]. apply Forall_app. split; [exact HE|].
        now constructor.
      * right. exists L0, z, (S k). split; [|split; [exact Hz | exact HT]].
        rewrite E, <- app_assoc. cbn [app]. now rewrite repeat_snoc.
    + clear IHy0. right. exists L, (y0 ++ [c]), 0. split; [reflexivity|].
      split; [now destruct y0|].
      rewrite app_assoc. apply TrimRight_snoc_other.
      intros ->. apply Hy', in_or_app. right. now left.
Qed.

(** The lines of the output of an included file: the START line, the
    lines of the body without the empty lines at its end, the END line. *)
Lemma render_lines rel (B : list str) :
  noLF rel -> Forall noLF B ->
  exists kept k,
    B = kept ++ repeat [] k
    /\ (kept = [] \/ last kept [] <> [])
    /\ rawLines (render false rel B)
       = (lit "# START " ++ rel) :: kept ++ [lit "# END " ++ rel].
Proof.
  intros Hrel HB. unfold render.
  assert (HS : noLF (lit "# START " ++ rel)).
  { apply noLF_app; [noLF_lit | exact Hrel]. }
  assert (HE : noLF (lit "# END " ++ rel)).
  { apply noLF_app; [noLF_lit | exact Hrel]. }
  assert (E : startMarker rel ++ unlines B
              = unlines ((lit "# START " ++ rel) :: B)).
  { rewrite unlines_cons. unfold startMarker. now rewrite <- !app_assoc. }
  rewrite E.
  destruct (@TrimRight_unlines ((lit "# START " ++ rel) :: B))
    as [[HN _]|[L0 [z [k [EL [Hz HT]]]]]]; [now constructor| |].
  { inversion HN as [|? ? H0 _]. discriminate H0. }
  rewrite HT. unfold endMarker.
  assert (HL0 : Forall noLF (L0 ++ [z; lit "# END " ++ rel])).
  { assert (HA : Forall noLF (L0 ++ z :: repeat [] k))
      by (rewrite <- EL; now constructor).
    apply Forall_app in HA. destruct HA as [H0 Hzk].
    inversion Hzk; subst. apply Forall_app. split; [exact H0|].
    repeat constructor; assumption. }
  assert (ER : rawLines ((unlines L0 ++ z) ++ LF :: lit "# END " ++ rel ++ [LF])
               = L0 ++ [z; lit "# END " ++ rel]).
  { pose proof (rawLines_unlines [] HL0) as R. rewrite !app_nil_r in R.
    rewrite <- R. f_equal. rewrite unlines_app, !unlines_cons.
    change (unlines []) with (@nil ascii). now rewrite <- !app_assoc. }
  rewrite ER. destruct L0 as [|s L0'].
  - cbn [app] in EL. injection EL as Es EB. subst z.
    exists [], k. split; [exact EB|]. split; [now left | reflexivity].
  - cbn [app] in EL. injection EL as Es EB. subst s.
    exists (L0' ++ [z]), k. split; [now rewrite <- app_assoc|]. split.
    + right. now rewrite last_last.
    + cbn [app]. now rewrite <- app_assoc.
Qed.

Section Framed.

Variable os : OS.

Lemma processFile_opened fuel filePath rootDir isRoot w out :
  processFile os fuel filePath rootDir isRoot = Ret w (out, None) ->
  exists n absPath file,
    fuel = S n /\ Abs os filePath = inl absPath /\ Open os absPath = inl file.
Proof.
  destruct fuel as [|n]; [discriminate|]. cbn [processFile].
  unfold processFileWith.
  destruct (Abs os filePath) as [absPath|e] eqn:HA; [|discriminate].
  destruct (Open os absPath) as [file|e] eqn:HO; [|discriminate].
  intros _. now exists n, absPath, file.
Qed.

(** X6. The lines of a file expanded as an include are its START line, the
    lines of its expansion as a root file without the empty lines at their
    end, and its END line: the markers are the first and the last line, and
    no empty line stands in front of the END line.  The path shown in the
    markers is one without a line feed. *)
Theorem included_lines_framed fuel filePath rootDir absPath w body :
  Abs os filePath = inl absPath ->
  noLF (markerPath os filePath rootDir absPath) ->
  processFile os fuel filePath rootDir true = Ret w (body, None) ->
  let rel := markerPath os filePath rootDir absPath in
  exists kept k out,
    rawLines body = kept ++ repeat [] k
    /\ (kept = [] \/ last kept [] <> [])
    /\ processFile os fuel filePath rootDir false = Ret w (out, None)
    /\ rawLines out = (lit "# START " ++ rel) :: kept ++ [lit "# END " ++ rel].
Proof.
  intros HA Hrel H rel.
  destruct (@processFile_as_include os fuel filePath rootDir absPath w body
              HA H) as [Hout HL].
  destruct (render_lines Hrel HL) as [kept [k [E [HK HR]]]].
  exists kept, k. eexists. split; [exact E|]. split; [exact HK|].
  split; [exact Hout | exact HR].
Qed.

End Framed.

Lemma included_lines_framed_witness :
  exists kept k out,
    rawLines (Sample.text ["a"; ""; ""]%string) = kept ++ repeat [] k
    /\ (kept = [] \/ last kept [] <> [])
    /\ processFile Sample.os 1 (lit "/r/trail.txt") Sample.root false
       = Ret [] (out, None)
    /\ rawLines out
       = (lit "# START " ++ lit "trail.txt")
         :: kept ++ [lit "# END " ++ lit "trail.txt"].
Proof.
  apply (@included_lines_framed Sample.os 1 (lit "/r/trail.txt") Sample.root
           (lit "/r/trail.txt") []
           (Sample.text ["a"; ""; ""]%string)).
  - reflexivity.
  - noLF_lit.
  - reflexivity.
Defined.

(** ** The second sample disk *)

Example site_expands :
  processFile Site.os 2 Site.template Site.root true
  = Ret [EmptyInclude (lit "/srv/packages.txt")] (Site.expanded, None).
Proof. reflexivity. Qed.

(** ** Every expansion ends in a line feed *)

Lemma closed_render isRoot rel (B : list str) : closed (render isRoot rel B).
Proof.
  unfold render. destruct isRoot; [apply closed_unlines|].
  right. exists (TrimRight (startMarker rel ++ unlines B) [LF]
                 ++ LF :: lit "# END " ++ rel).
  unfold endMarker. rewrite <- !app_assoc. cbn [app].
  now rewrite <- !app_assoc.
Qed.

Lemma closed_concat (parts : list str) :
  Forall closed parts -> closed (List.concat parts).
Proof.
  induction 1 as [|p parts Hp _ IH]; [now left|].
  cbn [List.concat]. now apply closed_app.
Qed.

Section Closed.

Variable os : OS.

Lemma processFile_closed fuel filePath rootDir isRoot w out :
  processFile os fuel filePath rootDir isRoot = Ret w (out, None) ->
  closed out.
Proof.
  intros H. destruct (processFile_opened _ _ _ _ _ H)
    as [n [absPath [file [-> [HA HO]]]]].
  destruct (@processFile_emitted os n filePath rootDir isRoot absPath file
              w out HA HO H) as [blocks [_ ->]].
  apply closed_render.
Qed.

(** The parts of a directory that was walked without error. *)
Lemma processIncludePath_parts fuel path rootDir w out :
  processIncludePath os fuel path rootDir = Ret w (out, None) ->
  exists parts,
    out = List.concat parts
    /\ Forall (fun part =>
                 exists p w',
                   processFile os fuel p rootDir false = Ret w' (part, None))
              parts.
Proof.
  unfold processIncludePath, processIncludePathWith.
  destruct (Stat os path) as [info|e]; [|discriminate].
  destruct (IsDir info).
  - intros H. apply bind_Ret_inv in H. destruct H as [wa [r [wb [Hw [Hk _]]]]].
    destruct r as [dirContent|e]; [|discriminate Hk]. injection Hk as _ <-.
    destruct (walkLoop_ok _ _ _ Hw) as [_ [parts [HF E]]].
    exists parts. split; [exact E|].
    clear - HF. induction HF as [|e part es parts [w' Hp] _ IH];
      constructor; [now exists (walkPath e), w' | exact IH].
  - intros H. exists [out]. split; [cbn; now rewrite app_nil_r|].
    constructor; [now exists path, w | constructor].
Qed.

(** X7. Whatever [processFile] or [processIncludePath] returns without
    error is empty or ends in a line feed: every write to the builder of a
    file ends in one (lines 39, 80, 84, 87 and 101).  So the expansion of a
    file whose last line has no line feed ends in one, and the expansions of
    the files of a directory follow one another line by line. *)
Theorem expansion_ends_in_line_feed :
  (forall fuel filePath rootDir isRoot w out,
      processFile os fuel filePath rootDir isRoot = Ret w (out, None) ->
      closed out)
  /\ (forall fuel path rootDir w out,
        processIncludePath os fuel path rootDir = Ret w (out, None) ->
        closed out).
Proof.
  split; [apply processFile_closed|].
  intros fuel path rootDir w out H.
  destruct (processIncludePath_parts _ _ _ H) as [parts [-> HF]].
  apply closed_concat. eapply Forall_impl; [|exact HF].
  intros part [p [w' Hp]]. exact (processFile_closed _ _ _ _ Hp).
Qed.

End Closed.

(** ** No directive is left in an expansion *)

Lemma isDirective_dropCR (l : str) : isDirective (dropCR l) = isDirective l.
Proof.
  destruct l as [|c l'] using rev_ind; [reflexivity|]. clear IHl'.
  rewrite dropCR_snoc. destruct (Ascii.eqb c CR) eqn:Ec; [|reflexivity].
  apply Ascii.eqb_eq in Ec. subst c.
  apply eq_true_iff_eq. rewrite !isDirective_iff. split.
  - intros [ws [rest [W ->]]]. exists ws, (rest ++ [CR]).
    split; [exact W | now rewrite <- !app_assoc].
  - intros [ws [rest [W E]]].
    destruct rest as [|d rest'] using rev_ind.
    + exfalso. rewrite app_nil_r in E.
      change (lit "#include:") with (lit "#include" ++ [":"%char]) in E.
      rewrite app_assoc in E. apply app_inj_tail in E.
      destruct E as [_ E]. discriminate E.
    + clear IHrest'. rewrite !app_assoc in E. apply app_inj_tail in E.
      destruct E as [E _]. exists ws, rest'.
      split; [exact W | now rewrite E, <- app_assoc].
Qed.

Lemma isDirective_indented (ws l : str) :
  Spaces ws -> isDirective (ws ++ l) = isDirective l.
Proof.
  intros W. unfold isDirective, TrimSpace.
  now rewrite trimLeftSpace_Spaces.
Qed.

(** A marker line is no directive. *)
Lemma isDirective_marker (x y : str) c :
  c <> "i"%char -> isDirective (hash :: c :: x ++ y) = false.
Proof.
  intros Hc. apply not_true_is_false. intros H.
  apply isDirective_iff in H. destruct H as [ws [rest [W E]]].
  destruct ws as [|d ws].
  - cbn in E. injection E as E _. congruence.
  - cbn [app] in E. injection E as <- _.
    exact (@plain_first_not_Spaces hash ws eq_refl W).
Qed.

Lemma tokens_In (raw : list str) atEnd (l : str) :
  In l (tokens (scanLines raw atEnd)) -> exists r, In r raw /\ l = dropCR r.
Proof.
  induction raw as [|r raw IH]; cbn [scanLines].
  - intros [].
  - destruct (tooLong r); [intros []|]. cbn [tokens].
    intros [<-|H]; [exists r; split; [now left | reflexivity]|].
    destruct (IH H) as [r' [Hr E]]. exists r'. split; [now right | exact E].
Qed.

Lemma includedLines_plain (content : str) :
  plainText content ->
  Forall (fun l => isDirective l = false) (includedLines content).
Proof.
  intros HP. apply Forall_forall. intros l Hl.
  unfold includedLines, NewStringScanner, NewScanner in Hl.
  cbn [contents readErr] in Hl.
  destruct (tokens_In _ _ _ Hl) as [r [Hr ->]].
  rewrite isDirective_dropCR.
  destruct (rawLines_TrimSuffix content) as [t [E _]].
  unfold plainText in HP. rewrite E in HP.
  apply Forall_app in HP. destruct HP as [HP _].
  exact (proj1 (Forall_forall _ _) HP r Hr).
Qed.

Lemma plainText_app (a b : str) :
  closed a -> plainText a -> plainText b -> plainText (a ++ b).
Proof.
  intros Hc Ha Hb. unfold plainText. rewrite rawLines_app by exact Hc.
  apply Forall_app. now split.
Qed.

Lemma plainText_render isRoot rel (B : list str) :
  noLF rel -> Forall noLF B ->
  Forall (fun l => isDirective l = false) B ->
  plainText (render isRoot rel B).
Proof.
  intros Hrel HL HB. unfold plainText. destruct isRoot.
  - cbn [render]. pose proof (rawLines_unlines [] HL) as R.
    rewrite !app_nil_r in R. now rewrite R.
  - destruct (render_lines Hrel HL) as [kept [k [E [_ ->]]]].
    rewrite E in HB. apply Forall_app in HB. destruct HB as [HK _].
    constructor; [apply (isDirective_marker (lit "START ") rel); discriminate|].
    apply Forall_app. split; [exact HK|].
    constructor; [|constructor].
    apply (isDirective_marker (lit "END ") rel). discriminate.
Qed.

Section NoDirective.

Variable os : OS.
Variable rootDir : str.
Hypothesis markers : markersOnOneLine os rootDir.

Lemma Emitted_plain pip filePath line block :
  (forall p w content, pip p = Ret w (content, None) -> plainText content) ->
  Emitted os pip filePath line block ->
  Forall (fun l => isDirective l = false) block.
Proof.
  intros Hpip [H|H1 H2|w content H1 H2 H3].
  - now constructor.
  - constructor.
  - apply Forall_app. split; [|now constructor].
    apply Forall_map. eapply Forall_impl;
      [|apply includedLines_plain, (Hpip _ _ _ H3)].
    intros l Hl. destruct (directive_slice line H1) as [_ [W _]].
    now rewrite isDirective_indented.
Qed.

Lemma processFile_plainText fuel :
  forall filePath isRoot w out,
    processFile os fuel filePath rootDir isRoot = Ret w (out, None) ->
    plainText out.
Proof.
  induction fuel as [|n IH]; intros filePath isRoot w out H; [discriminate|].
  destruct (processFile_opened _ _ _ _ _ H)
    as [n' [absPath [file [E [HA HO]]]]]. injection E as <-.
  destruct (@processFile_emitted os n filePath rootDir isRoot absPath file
              w out HA HO H) as [blocks [HF ->]].
  apply plainText_render.
  - exact (markers _ HA HO).
  - exact (Forall2_Emitted_noLF (NewScanner_noLF file) HF).
  - assert (Hpip : forall p w content,
               processIncludePath os n p rootDir = Ret w (content, None) ->
               plainText content).
    { intros p w' content Hp.
      destruct (processIncludePath_parts _ _ _ _ Hp) as [parts [-> HP]].
      clear Hp. induction HP as [|part parts [q [w'' Hq]] _ IHp];
        [constructor|].
      cbn [List.concat]. apply plainText_app; [| |exact IHp].
      - exact (processFile_closed _ _ _ _ _ Hq).
      - exact (IH _ _ _ _ Hq). }
    clear - HF Hpip. induction HF as [|l b ls bs Hlb _ IHf]; [constructor|].
    cbn [List.concat]. apply Forall_app. split; [|exact IHf].
    exact (Emitted_plain Hpip Hlb).
Qed.

(** X8. An expansion holds no directive line: what [processFile] and
    [processIncludePath] return without error is made of copied lines, which
    are no directives, of lines of includes behind an indentation, of empty
    lines and of marker lines.  So nothing is left to expand in the output
    of the program.  The paths shown in the markers are taken to hold no
    line feed: a path with one spreads its marker over two lines, and the
    second may be a directive. *)
Theorem expansion_has_no_directive :
  (forall fuel filePath isRoot w out,
      processFile os fuel filePath rootDir isRoot = Ret w (out, None) ->
      plainText out)
  /\ (forall fuel path w out,
        processIncludePath os fuel path rootDir = Ret w (out, None) ->
        plainText out).
Proof.
  split; [apply processFile_plainText|].
  intros fuel path w out Hp.
  destruct (processIncludePath_parts _ _ _ _ Hp) as [parts [-> HP]].
  clear Hp. induction HP as [|part parts [q [w'' Hq]] _ IHp]; [constructor|].
  cbn [List.concat]. apply plainText_app; [| |exact IHp].
  - exact (processFile_closed _ _ _ _ _ Hq).
  - exact (processFile_plainText _ _ _ Hq).
Qed.

End NoDirective.

(** On a mounted disk the markers show a part of the path of the file. *)
Lemma lookup_In (t : Disk.Table) (p : str) n :
  Disk.lookup t p = Some n -> In p (map fst t).
Proof.
  induction t as [|[q m] t IH]; [discriminate|]. cbn [Disk.lookup map fst].
  unfold Disk.eqs. destruct (list_eq_dec ascii_dec p q) as [->|_].
  - intros _. now left.
  - intros H. right. now apply IH.
Qed.

Lemma noLF_skipn n (l : str) : noLF l -> noLF (skipn n l).
Proof.
  intros H Hin. apply H. clear H. revert n Hin.
  induction l as [|c l IH]; intros [|n]; cbn; try tauto.
  intros Hin. right. now apply (IH n).
Qed.

Lemma mount_markersOnOneLine (t : Disk.Table) (rootDir : str) :
  Forall noLF (map fst t) -> markersOnOneLine (Disk.mount t) rootDir.
Proof.
  intros HT p absPath file HA HO. cbn in HA, HO. injection HA as <-.
  assert (Hp : noLF p).
  { destruct (Disk.lookup t p) as [n|] eqn:E; [|discriminate HO].
    exact (proj1 (Forall_forall _ _) HT p (lookup_In _ _ E)). }
  unfold markerPath. cbn [Rel ToSlash Disk.mount]. unfold Disk.relTo.
  destruct (HasPrefix p (rootDir ++ [Disk.slash])); [|exact Hp].
  now apply noLF_skipn.
Qed.

Lemma site_markersOnOneLine : markersOnOneLine Site.os Site.root.
Proof.
  apply mount_markersOnOneLine. cbn [map fst Site.disk].
  repeat (constructor; [noLF_lit|]). constructor.
Qed.

Lemma expansion_has_no_directive_witness : plainText Site.expanded.
Proof.
  destruct (@expansion_has_no_directive Site.os Site.root
              site_markersOnOneLine) as [H _].
  exact (H 2 Site.template true _ Site.expanded eq_refl).
Defined.

(** ** Expanding an expansion again *)

Lemma closed_unlines_rawLines (s : str) : closed s -> unlines (rawLines s) = s.
Proof.
  intros [->|[s' ->]]; [reflexivity|].
  induction s' as [|c s' IH]; [reflexivity|]. cbn [app rawLines].
  destruct (Ascii.eqb c LF) eqn:E.
  - apply Ascii.eqb_eq in E. subst c. rewrite unlines_cons. cbn [app].
    now rewrite IH.
  - destruct (rawLines (s' ++ [LF])) as [|l ls] eqn:El.
    + apply rawLines_nil_iff in El. now destruct s'.
    + rewrite unlines_cons in *. cbn [app]. now rewrite IH.
Qed.

Section Again.

Variables os os' : OS.
Variable rootDir : str.

(** X9. Expanding the output of the program once more changes nothing:
    when a root expansion has returned [out], and [out] has no line that
    ends in a carriage return or fills the scanner's buffer, the root
    expansion of a file that holds [out] returns [out], with no warning, in
    any file system and under any root directory.  (The markers of the
    first run are taken to be one line each.) *)
Theorem reexpansion_returns_output
    fuel filePath w out n again rootDir' absAgain :
  markersOnOneLine os rootDir ->
  processFile os fuel filePath rootDir true = Ret w (out, None) ->
  Forall keepsCR (rawLines out) ->
  Forall short (rawLines out) ->
  Abs os' again = inl absAgain ->
  Open os' absAgain = inl {| contents := out; readErr := None |} ->
  processFile os' (S n) again rootDir' true = Ret [] (out, None).
Proof.
  intros HM H HC HS HA HO.
  pose proof (processFile_plainText HM _ _ _ H) as HP.
  pose proof (processFile_closed _ _ _ _ _ H) as Hcl.
  assert (HT : NewScanner {| contents := out; readErr := None |}
               = {| tokens := rawLines out; scanErr := None |}).
  { unfold NewScanner. cbn [contents readErr].
    rewrite scanLines_short by exact HS. f_equal.
    clear - HC. induction HC as [|l ls Hl _ IH]; [reflexivity|].
    cbn [map]. now rewrite Hl, IH. }
  destruct (@processFile_plain os' n
              (processIncludePathWith os'
                 (fun p => processFile os' n p rootDir' false))
              again rootDir' true absAgain _ HA HO) as [H1 H2].
  - now rewrite HT.
  - now rewrite HT.
  - rewrite H2, H1. cbn [contents]. unfold ret. do 2 f_equal.
    rewrite <- unlines_dropCR_rawLines.
    replace (map dropCR (rawLines out)) with (rawLines out).
    + now apply closed_unlines_rawLines.
    + clear - HC. induction HC as [|l ls Hl _ IH]; [reflexivity|].
      cbn [map]. now rewrite Hl, <- IH.
Qed.

End Again.

Lemma reexpansion_returns_output_witness :
  processFile Site.os 1 (lit "/srv/expanded.yaml") Site.root true
  = Ret [] (Site.expanded, None).
Proof.
  apply (@reexpansion_returns_output Site.os Site.os Site.root 2
           Site.template [EmptyInclude (lit "/srv/packages.txt")]
           Site.expanded 0 (lit "/srv/expanded.yaml") Site.root
           (lit "/srv/expanded.yaml")).
  - exact site_markersOnOneLine.
  - reflexivity.
  - vm_compute. repeat constructor.
  - vm_compute. repeat constructor.
  - reflexivity.
  - reflexivity.
Defined.

(** ** The outcomes of [main] *)

Section Main.

Variable os : OS.

(** X10. [main] ends with status 0 exactly when it was given one argument,
    the argument is a directory, the template in it can be stat'ed and its
    expansion returns without error; standard output then holds the
    expansion and nothing else, and standard error the warnings.  Any other
    run that ends does so with status 1 and a last diagnostic that is no
    warning; it has written nothing to standard output, unless the number
    of arguments was wrong, when the usage text is all it has written. *)
Theorem main_outcomes (fuel : nat) (osArgs : list str) :
  (forall text warnings,
      main os fuel osArgs
      = Ret [] {| stdout := text; stderr := map LogWarning warnings;
                  exitCode := 0 |}
      <-> exists prog rootDir info tinfo,
            osArgs = [prog; rootDir]
            /\ Stat os rootDir = inl info /\ IsDir info = true
            /\ Stat os (Join os rootDir (lit "cloud-init.tmpl.yaml"))
               = inl tinfo
            /\ processFile os fuel
                 (Join os rootDir (lit "cloud-init.tmpl.yaml")) rootDir true
               = Ret warnings (text, None))
  /\ (forall w p,
        main os fuel osArgs = Ret w p ->
        w = []
        /\ (exitCode p = 0%Z
            /\ (exists warnings, stderr p = map LogWarning warnings)
            \/ exitCode p = 1%Z
               /\ (exists ds d, stderr p = ds ++ [d] /\ isFatal d = true)
               /\ (stdout p = []
                   \/ stdout p = usageText /\ List.length osArgs <> 2))).
Proof.
  split.
  - intros text warnings. split.
    + unfold main.
      destruct osArgs as [|prog [|rootDir [|x l]]]; try discriminate.
      destruct (Stat os rootDir) as [info|e] eqn:HS; [|discriminate].
      destruct (IsDir info) eqn:HD; cbn [negb]; [|discriminate].
      destruct (Stat os (Join os rootDir (lit "cloud-init.tmpl.yaml")))
        as [tinfo|e] eqn:HT; [|discriminate].
      destruct (processFile os fuel _ rootDir true)
        as [w [t [err|]]| |] eqn:HP; try discriminate.
      intros H. injection H as <- Hw.
      apply (f_equal (map (fun d => match d with
                                    | LogWarning x => [x]
                                    | _ => []
                                    end))) in Hw.
      rewrite !map_map in Hw. cbn in Hw.
      apply (f_equal (@List.concat _)) in Hw.
      assert (E : forall l : list Warning,
                 List.concat (map (fun x => [x]) l) = l).
      { induction l as [|a l IH]; [reflexivity|]. cbn. now rewrite IH. }
      rewrite !E in Hw. subst w.
      now exists prog, rootDir, info, tinfo.
    + intros [prog [rootDir [info [tinfo [-> [HS [HD [HT HP]]]]]]]].
      unfold main. rewrite HS, HD. cbn [negb]. now rewrite HT, HP.
  - intros w p. unfold main.
    destruct osArgs as [|prog [|rootDir [|x l]]].
    + intros H. injection H as <- <-. split; [reflexivity|]. right.
      split; [reflexivity|]. split; [now exists [], UsageError|].
      right. split; [reflexivity | discriminate].
    + intros H. injection H as <- <-. split; [reflexivity|]. right.
      split; [reflexivity|]. split; [now exists [], UsageError|].
      right. split; [reflexivity | discriminate].
    + destruct (Stat os rootDir) as [info|e].
      2:{ intros H. injection H as <- <-. split; [reflexivity|]. right.
          split; [reflexivity|].
          split; [now exists [], (FatalCannotAccess rootDir e) | now left]. }
      destruct (negb (IsDir info)).
      { intros H. injection H as <- <-. split; [reflexivity|]. right.
        split; [reflexivity|].
        split; [now exists [], (FatalNotADirectory rootDir) | now left]. }
      destruct (Stat os (Join os rootDir (lit "cloud-init.tmpl.yaml")))
        as [tinfo|e].
      2:{ intros H. injection H as <- <-. split; [reflexivity|]. right.
          split; [reflexivity|].
          split; [now exists [], (FatalTemplateNotFound rootDir e)
                 | now left]. }
      destruct (processFile os fuel _ rootDir true)
        as [w' [t [err|]]| |]; try discriminate.
      * intros H. injection H as <- <-. split; [reflexivity|]. right.
        split; [reflexivity|].
        split; [now exists (map LogWarning w'), (FatalExpand err) | now left].
      * intros H. injection H as <- <-. split; [reflexivity|]. left.
        split; [reflexivity | now exists w'].
    + intros H. injection H as <- <-. split; [reflexivity|]. right.
      split; [reflexivity|]. split; [now exists [], UsageError|].
      right. split; [reflexivity | cbn; lia].
Qed.

End Main.

(** ** Where an error comes from *)

Section Provenance.

Variable os : OS.

Lemma scanLoop_error pip filePath lines output w err :
  scanLoop os pip filePath lines output = Ret w (inr err) ->
  exists line w' text cause,
    In line lines /\ isDirective line = true /\ includePathOf line <> []
    /\ pip (Join os (Dir os filePath) (includePathOf line))
       = Ret w' (text, Some cause)
    /\ err = ErrInclude (includePathOf line) filePath cause.
Proof.
  revert output w. induction lines as [|l lines IH]; intros output w H;
    [discriminate H|].
  cbn [scanLoop] in H.
  apply bind_Ret_inv in H. destruct H as [w1 [r [w2 [Hl [Hk _]]]]].
  destruct r as [text| |e].
  - destruct (IH _ _ Hk) as [line [w' [t [cause [HI Hrest]]]]].
    exists line, w', t, cause. split; [now right | exact Hrest].
  - destruct (IH _ _ Hk) as [line [w' [t [cause [HI Hrest]]]]].
    exists line, w', t, cause. split; [now right | exact Hrest].
  - injection Hk as _ <-.
    destruct (isDirective l) eqn:HD;
      [|rewrite processLine_copy in Hl by exact HD; discriminate Hl].
    rewrite processLine_directive in Hl by exact HD.
    destruct (includePathOf l) as [|c t] eqn:HI; [discriminate Hl|].
    cbn [isEmpty] in Hl.
    apply bind_Ret_inv in Hl. destruct Hl as [wa [a [wb [Hp [Hr _]]]]].
    destruct a as [content [cause|]]; [|discriminate Hr].
    injection Hr as _ <-.
    exists l, wa, content, cause. rewrite HI.
    split; [now left|]. split; [exact HD|]. split; [discriminate|].
    split; [exact Hp | reflexivity].
Qed.

Lemma walkLoop_error pf entries dirContent w err :
  walkLoop pf entries dirContent = Ret w (inr err) ->
  exists e,
    In e entries
    /\ (walkErr e = Some err
        \/ fileEntry e = true
           /\ exists w' text cause,
                pf (walkPath e) = Ret w' (text, Some cause)
                /\ err = ErrDirFile (walkPath e) cause).
Proof.
  revert dirContent w. induction entries as [|e entries IH]; intros d w H;
    [discriminate H|].
  cbn [walkLoop] in H. destruct (walkErr e) as [e0|] eqn:He.
  - injection H as _ <-. exists e. split; [now left | now left].
  - destruct (negb (IsDir (walkInfo e))) eqn:Hf.
    + apply bind_Ret_inv in H. destruct H as [w1 [r [w2 [Hp [Hk _]]]]].
      destruct r as [content [cause|]].
      * injection Hk as _ <-. exists e. split; [now left|]. right.
        split; [exact Hf|]. now exists w1, content, cause.
      * destruct (IH _ _ Hk) as [e' [HI Hrest]].
        exists e'. split; [now right | exact Hrest].
    + destruct (IH _ _ H) as [e' [HI Hrest]].
      exists e'. split; [now right | exact Hrest].
Qed.

(** X11. Every error [processFile] returns names the file it was called
    on: it is the failure to make its path absolute or to open it, the
    failure to read it to its end (the error of the read, or
    [bufio.ErrTooLong] for a line that fills the buffer), or the error of
    the include of one of its directives, with the path of the directive
    and the file added.  An error of [processIncludePath] is the failure of
    [os.Stat] with the path added, an error of the walk as it is, the error
    of a file of the directory with the path of the file added, or the
    error of [processFile] on the path. *)
Theorem errors_name_their_origin :
  (forall fuel filePath rootDir isRoot w text err,
      processFile os (S fuel) filePath rootDir isRoot = Ret w (text, Some err) ->
      (exists cause,
          Abs os filePath = inr cause /\ err = ErrAbsPath filePath cause)
      \/ (exists absPath cause,
            Abs os filePath = inl absPath /\ Open os absPath = inr cause
            /\ err = ErrOpenFile filePath cause)
      \/ (exists absPath file cause,
            Abs os filePath = inl absPath /\ Open os absPath = inl file
            /\ scanErr (NewScanner file) = Some cause
            /\ (cause = ErrTooLong \/ readErr file = Some cause)
            /\ err = ErrReadFile filePath cause)
      \/ (exists line w' cause,
            HasLine os filePath line /\ isDirective line = true
            /\ includePathOf line <> []
            /\ processIncludePath os fuel
                 (Join os (Dir os filePath) (includePathOf line)) rootDir
               = Ret w' ([], Some cause)
            /\ err = ErrInclude (includePathOf line) filePath cause))
  /\ (forall fuel path rootDir w text err,
        processIncludePath os fuel path rootDir = Ret w (text, Some err) ->
        (exists cause, Stat os path = inr cause /\ err = ErrNotFound path cause)
        \/ (exists info e,
              Stat os path = inl info /\ IsDir info = true
              /\ In e (Walk os path)
              /\ (walkErr e = Some err
                  \/ fileEntry e = true
                     /\ exists w' cause,
                          processFile os fuel (walkPath e) rootDir false
                          = Ret w' ([], Some cause)
                          /\ err = ErrDirFile (walkPath e) cause))
        \/ (exists info,
              Stat os path = inl info /\ IsDir info = false
              /\ processFile os fuel path rootDir false
                 = Ret w ([], Some err))).
Proof.
  split.
  - intros fuel filePath rootDir isRoot w text err H.
    cbn [processFile] in H. unfold processFileWith in H.
    destruct (Abs os filePath) as [absPath|e] eqn:HA.
    2:{ injection H as _ _ <-. left. now exists e. }
    destruct (Open os absPath) as [file|e] eqn:HO.
    2:{ injection H as _ _ <-. right. left. now exists absPath, e. }
    cbv zeta in H.
    apply bind_Ret_inv in H. destruct H as [w1 [r [w2 [Hl [Hk _]]]]].
    destruct r as [output|e].
    + destruct (scanErr (NewScanner file)) as [cause|] eqn:HE.
      * injection Hk as _ _ <-. right. right. left.
        exists absPath, file, cause.
        split; [reflexivity|]. split; [exact HO|]. split; [exact HE|].
        split; [|reflexivity].
        unfold NewScanner in HE. clear - HE.
        induction (rawLines (contents file)) as [|l raw IH];
          cbn [scanLines] in HE.
        -- right. exact HE.
        -- destruct (tooLong l); cbn [scanErr] in HE;
             [left; now injection HE | now apply IH].
      * destruct isRoot; discriminate Hk.
    + injection Hk as _ _ <-. right. right. right.
      destruct (scanLoop_error _ _ _ _ Hl)
        as [line [w' [t [cause [HI [HD [HN [Hp ->]]]]]]]].
      exists line, w', cause.
      split; [now exists absPath, file|]. split; [exact HD|].
      split; [exact HN|]. split; [|reflexivity].
      assert (Hp' : processIncludePath os fuel
                      (Join os (Dir os filePath) (includePathOf line)) rootDir
                    = Ret w' (t, Some cause)) by exact Hp.
      pose proof (@processIncludePath_error_no_text os _ _ _ _ _ _ Hp') as Et.
      now subst t.
  - intros fuel path rootDir w text err H.
    unfold processIncludePath, processIncludePathWith in H.
    destruct (Stat os path) as [info|e] eqn:HS.
    2:{ injection H as _ _ <-. left. now exists e. }
    destruct (IsDir info) eqn:HD.
    + right. left.
      apply bind_Ret_inv in H. destruct H as [w1 [r [w2 [Hw [Hk _]]]]].
      destruct r as [dirContent|e]; [discriminate Hk|].
      injection Hk as _ _ <-.
      destruct (walkLoop_error _ _ _ Hw) as [e' [HI Hc]].
      exists info, e'. split; [reflexivity|]. split; [exact HD|].
      split; [exact HI|].
      destruct Hc as [Hc|[Hf [w' [t [cause [Hp ->]]]]]]; [now left|].
      right. split; [exact Hf|]. exists w', cause. split; [|reflexivity].
      pose proof (@processFile_error_no_text os _ _ _ _ _ _ _ Hp) as Et.
      now subst t.
    + right. right. exists info. split; [reflexivity|]. split; [exact HD|].
      pose proof (@processFile_error_no_text os _ _ _ _ _ _ _ H) as Et.
      now subst text.
Qed.

End Provenance.

(** ** The include of a directory without files *)

Section EmptyDirectory.

Variable os : OS.

Lemma walkLoop_no_files pf entries dirContent :
  Forall (fun e => walkErr e = None /\ fileEntry e = false) entries ->
  walkLoop pf entries dirContent = Ret [] (inl dirContent).
Proof.
  induction 1 as [|e entries [He Hf] _ IH]; [reflexivity|].
  cbn [walkLoop]. rewrite He. unfold fileEntry in Hf. now rewrite Hf.
Qed.

(** X12. The include of a directory in which the walk finds no file, only
    directories: the directive is replaced by one empty line, without the
    indentation and without markers, and no file is opened; the content of
    the include is the empty string, so the loop of lines 76 to 81 is not
    entered. *)
Theorem directory_without_files_gives_empty_line
    fuel rootDir filePath line info :
  isDirective line = true ->
  includePathOf line <> [] ->
  Stat os (Join os (Dir os filePath) (includePathOf line)) = inl info ->
  IsDir info = true ->
  Forall (fun e => walkErr e = None /\ fileEntry e = false)
         (Walk os (Join os (Dir os filePath) (includePathOf line))) ->
  processIncludePath os fuel
    (Join os (Dir os filePath) (includePathOf line)) rootDir
  = Ret [] ([], None)
  /\ processLine os (fun p => processIncludePath os fuel p rootDir)
       filePath line
     = Ret [] (Emit [LF]).
Proof.
  intros HD HN HS HI HW.
  assert (E : processIncludePath os fuel
                (Join os (Dir os filePath) (includePathOf line)) rootDir
              = Ret [] ([], None)).
  { unfold processIncludePath, processIncludePathWith. rewrite HS, HI.
    now rewrite walkLoop_no_files by exact HW. }
  split; [exact E|].
  exact (@processLine_emit os (fun p => processIncludePath os fuel p rootDir)
           filePath line [] [] HD HN E).
Qed.

End EmptyDirectory.

Lemma directory_without_files_gives_empty_line_witness :
  processIncludePath Site.os 0 (lit "/srv/void") Site.root = Ret [] ([], None)
  /\ processLine Site.os (fun p => processIncludePath Site.os 0 p Site.root)
       Site.template (lit "  #include: void")
     = Ret [] (Emit [LF]).
Proof.
  apply (@directory_without_files_gives_empty_line Site.os 0 Site.root
           Site.template (lit "  #include: void") {| IsDir := true |}).
  - reflexivity.
  - discriminate.
  - reflexivity.
  - reflexivity.
  - repeat constructor.
Defined.

(** ** The block of an include is always written *)

Lemma tokens_scanned (raw : list str) atEnd :
  tokens (scanLines raw atEnd) = map dropCR (scanned raw).
Proof.
  induction raw as [|l raw IH]; [reflexivity|]. cbn [scanLines scanned].
  destruct (tooLong l); [reflexivity|]. cbn [tokens map]. now rewrite IH.
Qed.

Lemma scanned_short (raw : list str) : Forall short raw -> scanned raw = raw.
Proof.
  induction 1 as [|l raw Hl _ IH]; [reflexivity|]. cbn [scanned].
  unfold short in Hl. now rewrite Hl, IH.
Qed.

Lemma scanned_stops (pre : list str) (l : str) (post : list str) :
  Forall short pre -> tooLong l = true -> scanned (pre ++ l :: post) = pre.
Proof.
  induction 1 as [|r pre Hr _ IH]; intros Hl; cbn [app scanned].
  - now rewrite Hl.
  - unfold short in Hr. now rewrite Hr, IH.
Qed.

Section Truncation.

Variable os : OS.

Lemma processLine_scanned pip filePath line w content :
  isDirective line = true ->
  includePathOf line <> [] ->
  pip (Join os (Dir os filePath) (includePathOf line)) = Ret w (content, None) ->
  processLine os pip filePath line
  = Ret w (Emit (unlines
                   (map (fun l => indentationOf line ++ dropCR l)
                        (scanned (rawLines (TrimSuffix content [LF])))
                    ++ [[]]))).
Proof.
  intros HD HN HP.
  rewrite (@processLine_emit os pip filePath line w content HD HN HP).
  rewrite indentBlock_lines. unfold includedLines, NewStringScanner,
    NewScanner. cbn [contents readErr].
  now rewrite tokens_scanned, map_map.
Qed.

(** X13. Once the include of a directive has returned its content, the
    block of the directive is written and the loop goes on: the scanner of
    lines 76 to 81 is never asked for its error.  The block holds the lines
    of the content in front of the first line of 65536 bytes or more, each
    behind the indentation and without a carriage return at its end, and
    the empty line; a line that fills the buffer and all lines after it are
    left out without an error or a warning. *)
Theorem include_block_always_written pip filePath line w content :
  isDirective line = true ->
  includePathOf line <> [] ->
  pip (Join os (Dir os filePath) (includePathOf line)) = Ret w (content, None) ->
  processLine os pip filePath line
  = Ret w (Emit (unlines
                   (map (fun l => indentationOf line ++ dropCR l)
                        (scanned (rawLines (TrimSuffix content [LF])))
                    ++ [[]])))
  /\ (Forall short (rawLines (TrimSuffix content [LF])) ->
      scanned (rawLines (TrimSuffix content [LF]))
      = rawLines (TrimSuffix content [LF]))
  /\ (forall pre l post,
        rawLines (TrimSuffix content [LF]) = pre ++ l :: post ->
        Forall short pre -> tooLong l = true ->
        scanned (rawLines (TrimSuffix content [LF])) = pre).
Proof.
  intros HD HN HP. split; [|split].
  - now apply processLine_scanned.
  - apply scanned_short.
  - intros pre l post -> HS HL. now apply scanned_stops.
Qed.

End Truncation.

Lemma include_block_always_written_witness :
  processLine Sample.os (fun p => processIncludePath Sample.os 1 p Sample.root)
    Sample.template (lit "  #include: foo.txt")
  = Ret [] (Emit (Sample.text ["  # START foo.txt"; "  a"; "  b";
                               "  # END foo.txt"; ""]%string)).
Proof.
  destruct (@include_block_always_written Sample.os
              (fun p => processIncludePath Sample.os 1 p Sample.root)
              Sample.template (lit "  #include: foo.txt") []
              (Sample.text ["# START foo.txt"; "a"; "b";
                            "# END foo.txt"]%string))
    as [H _]; [reflexivity | discriminate | reflexivity |].
  exact H.
Defined.

(** ** Termination without cycles *)

Lemma common_fuel {A : Type} (P : nat -> A -> Prop) :
  (forall n m x, n <= m -> P n x -> P m x) ->
  forall l : list A,
    (forall x, In x l -> exists n, P n x) ->
    exists n, forall x, In x l -> P n x.
Proof.
  intros Hmono l. induction l as [|a l IH]; intros H.
  - exists 0. intros x [].
  - destruct (H a (or_introl eq_refl)) as [na Ha].
    destruct IH as [nl Hl]; [intros x Hx; apply H; now right|].
    exists (Nat.max na nl). intros x [<-|Hx].
    + apply Hmono with (n := na); [apply Nat.le_max_l | exact Ha].
    + apply Hmono with (n := nl); [apply Nat.le_max_r | now apply Hl].
Qed.

Section Termination.

Variable os : OS.
Variable rootDir : str.

Lemma Returns_mono n m p :
  n <= m -> Returns os rootDir n p -> Returns os rootDir m p.
Proof.
  intros Hle H isRoot. destruct (H isRoot) as [w [r E]].
  exists w, r. exact (@processFile_fuel_le os n m p rootDir isRoot w r Hle E).
Qed.

Lemma scanLoop_returns pip filePath lines :
  (forall line, In line lines ->
     exists w r, processLine os pip filePath line = Ret w r) ->
  forall output, exists w r,
    scanLoop os pip filePath lines output = Ret w r.
Proof.
  induction lines as [|l lines IH]; intros H output.
  - now exists [], (inl output).
  - cbn [scanLoop]. destruct (H l (or_introl eq_refl)) as [w [r E]].
    rewrite E. cbn [bind].
    assert (H' : forall line, In line lines ->
                   exists w r, processLine os pip filePath line = Ret w r)
      by (intros line Hl; apply H; now right).
    destruct r as [text| |err].
    + destruct (IH H' (output ++ text)) as [w' [r' E']].
      rewrite E'. now eexists _, _.
    + destruct (IH H' output) as [w' [r' E']].
      rewrite E'. now eexists _, _.
    + now eexists _, _.
Qed.

Lemma walkLoop_returns pf entries :
  (forall e, In e entries -> fileEntry e = true ->
     exists w r, pf (walkPath e) = Ret w r) ->
  forall dirContent, exists w r, walkLoop pf entries dirContent = Ret w r.
Proof.
  induction entries as [|e entries IH]; intros H d.
  - now exists [], (inl d).
  - cbn [walkLoop].
    assert (H' : forall e', In e' entries -> fileEntry e' = true ->
                   exists w r, pf (walkPath e') = Ret w r)
      by (intros e' He'; apply H; now right).
    destruct (walkErr e); [now eexists _, _|].
    destruct (negb (IsDir (walkInfo e))) eqn:Hf; [|apply (IH H')].
    destruct (H e (or_introl eq_refl) Hf) as [w [[content [err|]] E]];
      rewrite E; cbn [bind].
    + now eexists _, _.
    + destruct (IH H' (d ++ content)) as [w' [r' E']].
      rewrite E'. now eexists _, _.
Qed.

Lemma processLine_fuel_le n m filePath line w r :
  n <= m ->
  processLine os (fun p => processIncludePath os n p rootDir) filePath line
  = Ret w r ->
  processLine os (fun p => processIncludePath os m p rootDir) filePath line
  = Ret w r.
Proof.
  intros Hle. apply processLine_extends.
  intros p w' a. now apply processIncludePath_fuel_le.
Qed.

Lemma WellFounded_returns filePath :
  WellFounded os filePath -> exists fuel, Returns os rootDir fuel filePath.
Proof.
  induction 1 as [p _ IH].
  destruct (Abs os p) as [absPath|e] eqn:HA.
  2:{ exists 1. intros isRoot. cbn [processFile]. unfold processFileWith.
      rewrite HA. now eexists _, _. }
  destruct (Open os absPath) as [file|e] eqn:HO.
  2:{ exists 1. intros isRoot. cbn [processFile]. unfold processFileWith.
      rewrite HA, HO. now eexists _, _. }
  destruct (@common_fuel str
              (fun n line =>
                 exists w r,
                   processLine os
                     (fun q => processIncludePath os n q rootDir) p line
                   = Ret w r))
    with (l := tokens (NewScanner file)) as [n Hn].
  - intros n m line Hle [w [r E]]. exists w, r.
    exact (processLine_fuel_le _ _ Hle E).
  - intros line Hl.
    assert (HLine : HasLine os p line) by (now exists absPath, file).
    (* the files the line reaches, at a common depth *)
    destruct (isDirective line) eqn:HD.
    2:{ exists 0. rewrite processLine_copy by exact HD. now eexists _, _. }
    destruct (includePathOf line) as [|c t] eqn:HI.
    { exists 0. rewrite processLine_directive by exact HD. rewrite HI.
      now eexists _, _. }
    assert (HN : includePathOf line <> []) by (rewrite HI; discriminate).
    set (target := Join os (Dir os p) (includePathOf line)).
    destruct (Stat os target) as [info|e] eqn:HS.
    2:{ exists 0. rewrite processLine_directive by exact HD. rewrite HI.
        cbn [isEmpty]. rewrite <- HI. fold target.
        unfold processIncludePath, processIncludePathWith. rewrite HS.
        now eexists _, _. }
    destruct (IsDir info) eqn:HDir.
    + destruct (@common_fuel WalkEntry
                  (fun n e => fileEntry e = true ->
                              Returns os rootDir n (walkPath e)))
        with (l := Walk os target) as [k Hk].
      * intros a b e Hle H Hf. exact (Returns_mono Hle (H Hf)).
      * intros e He. destruct (fileEntry e) eqn:Hf.
        -- destruct (IH (walkPath e)) as [k Hk].
           { right. exists line, info, e. now repeat split. }
           exists k. now intros _.
        -- exists 0. discriminate.
      * exists k. rewrite processLine_directive by exact HD. rewrite HI.
        cbn [isEmpty]. rewrite <- HI. fold target.
        unfold processIncludePath, processIncludePathWith.
        rewrite HS, HDir.
        destruct (@walkLoop_returns
                    (fun q => processFile os k q rootDir false)
                    (Walk os target)) with (dirContent := @nil ascii)
          as [w [r E]].
        { intros e He Hf. exact (Hk e He Hf false). }
        rewrite E. destruct r; now eexists _, _.
    + destruct (IH target) as [k Hk].
      { left. exists line. split; [exact HLine|]. split; [exact HD|].
        split; [exact HN|]. split; [reflexivity|]. now exists info. }
      exists k. rewrite processLine_directive by exact HD. rewrite HI.
      cbn [isEmpty]. rewrite <- HI. fold target.
      unfold processIncludePath, processIncludePathWith.
      rewrite HS, HDir. destruct (Hk false) as [w [[content [err|]] E]];
        rewrite E; now eexists _, _.
  - exists (S n). intros isRoot. cbn [processFile]. unfold processFileWith.
    rewrite HA, HO. cbv zeta.
    match goal with
    | |- context [scanLoop os ?pip p ?l ?o] =>
        destruct (@scanLoop_returns pip p l Hn o) as [w [r E]]
    end.
    rewrite E. destruct r as [output|err]; [|now eexists _, _].
    cbn [bind]. destruct (scanErr (NewScanner file)); [now eexists _, _|].
    destruct isRoot; now eexists _, _.
Qed.

(** X14. Where no chain of includes goes on for ever, the expansion
    returns: if the relation between a file and the files its directives
    make the expander process (the regular file a directive names, or the
    files the walk finds in the directory it names) is well founded at
    [filePath], then [processFile] returns on [filePath], as the root or as
    an include, with a result or an error, at some depth of the recursion
    and at every greater one. *)
Theorem expansion_returns_without_cycles filePath :
  WellFounded os filePath ->
  exists fuel, forall fuel', fuel <= fuel' ->
    forall isRoot, exists w r,
      processFile os fuel' filePath rootDir isRoot = Ret w r.
Proof.
  intros H. destruct (WellFounded_returns H) as [fuel Hf].
  exists fuel. intros fuel' Hle. exact (Returns_mono Hle Hf).
Qed.

End Termination.

(** A file without a directive that has a path reaches no file. *)
Lemma WellFounded_leaf (os : OS) p absPath file :
  Abs os p = inl absPath ->
  Open os absPath = inl file ->
  Forall (fun l => isDirective l = true -> includePathOf l = [])
         (tokens (NewScanner file)) ->
  WellFounded os p.
Proof.
  intros HA HO HF. constructor. intros q HR. exfalso.
  assert (HL : exists line,
             HasLine os p line /\ isDirective line = true
             /\ includePathOf line <> []).
  { destruct HR as [[line [HL [HD [HN _]]]]
                   |[line [info [e [HL [HD [HN _]]]]]]];
      now exists line. }
  destruct HL as [line [[a [f [HA' [HO' HI]]]] [HD HN]]].
  rewrite HA in HA'. injection HA' as <-.
  rewrite HO in HO'. injection HO' as <-.
  exact (HN (proj1 (Forall_forall _ _) HF line HI HD)).
Qed.

Lemma site_WellFounded : WellFounded Site.os Site.template.
Proof.
  assert (L1 : WellFounded Site.os (lit "/srv/packages.txt")).
  { eapply WellFounded_leaf; [reflexivity | reflexivity |].
    repeat (constructor; [intros H; first [reflexivity | discriminate H]|]).
    constructor. }
  assert (L2 : WellFounded Site.os (lit "/srv/write_files/10-motd.yaml")).
  { eapply WellFounded_leaf; [reflexivity | reflexivity |].
    repeat (constructor; [intros H; first [reflexivity | discriminate H]|]).
    constructor. }
  assert (L3 : WellFounded Site.os (lit "/srv/write_files/20-hosts.yaml")).
  { eapply WellFounded_leaf; [reflexivity | reflexivity |].
    repeat (constructor; [intros H; first [reflexivity | discriminate H]|]).
    constructor. }
  constructor. intros q HR.
  destruct HR as [[line [HL [HD [HN [Et [info [HS HDir]]]]]]]
                 |[line [info [e [HL [HD [HN [HS [HDir [He [Hf Et]]]]]]]]]]];
    destruct HL as [absPath [file [HA [HO HI]]]];
    vm_compute in HA; injection HA as <-; vm_compute in HO;
    injection HO as <-;
    vm_compute in HI;
    repeat (destruct HI as [<-|HI]; [try discriminate HD|]);
    try contradiction.
  - subst q. vm_compute in HS. injection HS as <-. discriminate HDir.
  - subst q. exact L1.
  - subst q. vm_compute in HS. injection HS as <-. discriminate HDir.
  - vm_compute in He. subst q.
    repeat (destruct He as [<-|He]; [try discriminate Hf|]);
      try contradiction; assumption.
  - vm_compute in HS. injection HS as <-. discriminate HDir.
  - vm_compute in He. subst q.
    repeat (destruct He as [<-|He]; [try discriminate Hf|]);
      try contradiction.
Qed.

Lemma expansion_returns_without_cycles_witness :
  exists fuel, forall fuel', fuel <= fuel' ->
    forall isRoot, exists w r,
      processFile Site.os fuel' Site.template Site.root isRoot = Ret w r.
Proof.
  exact (@expansion_returns_without_cycles Site.os Site.root Site.template
           site_WellFounded).
Defined.

(** ** Cycles of includes *)

Section Cycles.

Variable os : OS.
Variable rootDir : str.

Lemma bind_OutOfFuel {A B : Type} (m : Run A) (k : A -> Run B) :
  m = OutOfFuel -> bind m k = OutOfFuel.
Proof. now intros ->. Qed.

Lemma processFileWith_first_include pip host target isRoot :
  FirstIncludes os host target ->
  pip target = OutOfFuel ->
  processFileWith os pip host rootDir isRoot = OutOfFuel.
Proof.
  intros [absPath [file [pre [line [post [info
           [HA [HO [HT [HP [HD [HN [Et [HS HI]]]]]]]]]]]]]] Hpip.
  unfold processFileWith. rewrite HA, HO. cbv zeta. rewrite HT.
  apply bind_OutOfFuel.
  match goal with
  | |- scanLoop os pip host _ ?o = _ =>
      pose proof (@scanLoop_empty_directives os pip host pre o HP) as Hpre
  end.
  assert (Hline : forall o, scanLoop os pip host (line :: post) o = OutOfFuel).
  { intros o. cbn [scanLoop]. apply bind_OutOfFuel.
    rewrite processLine_directive by exact HD.
    destruct (includePathOf line) as [|c t] eqn:E; [congruence|].
    cbn [isEmpty]. rewrite <- Et. now apply bind_OutOfFuel. }
  clear - Hpre Hline. revert Hpre.
  generalize (map (fun _ : str => EmptyInclude host) (filter isDirective pre)).
  match goal with
  | |- forall l, scanLoop _ _ _ _ ?o = Ret l (inl ?o') -> _ =>
      generalize o'; generalize o
  end.
  induction pre as [|l pre IH]; intros o o' w H.
  - apply Hline.
  - cbn [app scanLoop] in *.
    destruct (processLine os pip host l) as [w1 r| |]; try discriminate H.
    cbn [bind] in *. destruct r as [text| |err].
    + destruct (scanLoop os pip host pre (o ++ text)) as [w2 r2| |] eqn:E2;
        try discriminate H.
      injection H as _ Hr. subst r2.
      now rewrite (IH _ _ _ E2).
    + destruct (scanLoop os pip host pre o) as [w2 r2| |] eqn:E2;
        try discriminate H.
      injection H as _ Hr. subst r2.
      now rewrite (IH _ _ _ E2).
    + discriminate H.
Qed.

(** X15. A cycle of includes does not return.  Take any set of files in
    which each file has, as its first directive with a path, the include of
    a regular file of the set (a file that includes itself, two files that
    include each other, a longer ring): [processFile] returns on none of
    them, as the root or as an include, at any depth of the recursion.
    Nothing in [processFile] or [processIncludePath] remembers the files
    that are being expanded. *)
Theorem include_cycle_diverges (ring : str -> Prop) :
  (forall p, ring p -> exists q, ring q /\ FirstIncludes os p q) ->
  forall fuel p isRoot,
    ring p -> processFile os fuel p rootDir isRoot = OutOfFuel.
Proof.
  intros Hring. induction fuel as [|n IH]; intros p isRoot Hp; [reflexivity|].
  cbn [processFile]. destruct (Hring p Hp) as [q [Hq HF]].
  apply processFileWith_first_include with (target := q); [exact HF|].
  destruct HF as [absPath [file [pre [line [post [info
                   [_ [_ [_ [_ [_ [_ [_ [HS HI]]]]]]]]]]]]]].
  unfold processIncludePathWith. rewrite HS, HI. now apply IH.
Qed.

End Cycles.

Lemma cyclic_ring (p : str) :
  p = lit "/r/ping.yaml" \/ p = lit "/r/pong.yaml" ->
  exists q,
    (q = lit "/r/ping.yaml" \/ q = lit "/r/pong.yaml")
    /\ FirstIncludes Sample.cyclic p q.
Proof.
  intros [->| ->].
  - exists (lit "/r/pong.yaml"). split; [now right|].
    exists (lit "/r/ping.yaml"),
      {| contents := Sample.text ["#include: pong.yaml"]%string;
         readErr := None |}, [], (lit "#include: pong.yaml"), [],
      {| IsDir := false |}.
    repeat split; try reflexivity; [constructor | discriminate].
  - exists (lit "/r/ping.yaml"). split; [now left|].
    exists (lit "/r/pong.yaml"),
      {| contents := Sample.text ["#include: ping.yaml"]%string;
         readErr := None |}, [], (lit "#include: ping.yaml"), [],
      {| IsDir := false |}.
    repeat split; try reflexivity; [constructor | discriminate].
Qed.

Lemma include_cycle_diverges_witness :
  (forall fuel isRoot,
      processFile Sample.cyclic fuel (lit "/r/ping.yaml") Sample.root isRoot
      = OutOfFuel)
  /\ (forall fuel isRoot,
        processFile Sample.cyclic fuel (lit "/r/pong.yaml") Sample.root isRoot
        = OutOfFuel).
Proof.
  split; intros fuel isRoot;
    apply (@include_cycle_diverges Sample.cyclic Sample.root _ cyclic_ring);
    [now left | now right].
Defined.

(** ** The block of the include of a file *)

Section IncludeBlock.

Variable os : OS.

(** X16. The block written for a directive that names a regular file:
    behind the indentation of the directive stand the START line of the
    file, the lines of its expansion as a root file without the empty lines
    at their end, and its END line; one empty line, without indentation,
    ends the block.  The markers are those of the included file and are
    indented like its content.  (The path shown in the markers holds no line
    feed, and no line of the block fills the scanner's buffer.) *)
Theorem file_include_block_framed
    fuel rootDir filePath line info absPath w body :
  isDirective line = true ->
  includePathOf line <> [] ->
  let target := Join os (Dir os filePath) (includePathOf line) in
  Stat os target = inl info ->
  IsDir info = false ->
  Abs os target = inl absPath ->
  let rel := markerPath os target rootDir absPath in
  noLF rel ->
  processFile os fuel target rootDir true = Ret w (body, None) ->
  exists kept k,
    rawLines body = kept ++ repeat [] k
    /\ (kept = [] \/ last kept [] <> [])
    /\ (Forall short
          ((lit "# START " ++ rel) :: kept ++ [lit "# END " ++ rel]) ->
        processLine os (fun p => processIncludePath os fuel p rootDir)
          filePath line
        = Ret w (Emit (unlines
                         (map (fun l => indentationOf line ++ dropCR l)
                              ((lit "# START " ++ rel)
                               :: kept ++ [lit "# END " ++ rel])
                          ++ [[]])))).
Proof.
  intros HD HN target HS HI HA rel Hrel H.
  destruct (@processFile_as_include os fuel target rootDir absPath w body
              HA H) as [Hout HB].
  destruct (render_lines Hrel HB) as [kept [k [E [HK HL]]]].
  fold rel in Hout, HL.
  remember (render false rel (rawLines body)) as out eqn:Eout.
  exists kept, k. split; [exact E|]. split; [exact HK|].
  intros Hshort.
  assert (HP : processIncludePath os fuel target rootDir = Ret w (out, None)).
  { unfold processIncludePath, processIncludePathWith. now rewrite HS, HI. }
  rewrite (@processLine_scanned os
             (fun p => processIncludePath os fuel p rootDir)
             filePath line w out HD HN HP).
  assert (HT : rawLines (TrimSuffix out [LF]) = rawLines out).
  { destruct (rawLines_TrimSuffix out) as [t [Et [->| ->]]].
    - now rewrite app_nil_r in Et.
    - exfalso. rewrite HL in Et.
      change ((lit "# START " ++ rel) :: kept ++ [lit "# END " ++ rel])
        with (((lit "# START " ++ rel) :: kept) ++ [lit "# END " ++ rel])
        in Et.
      apply app_inj_tail in Et. destruct Et as [_ Et]. discriminate Et. }
  rewrite HT, HL. now rewrite scanned_short by exact Hshort.
Qed.

End IncludeBlock.

Lemma file_include_block_framed_witness :
  exists kept k,
    rawLines (Sample.text ["a"; ""; ""]%string) = kept ++ repeat [] k
    /\ (kept = [] \/ last kept [] <> [])
    /\ (Forall short
          ((lit "# START " ++ lit "trail.txt")
           :: kept ++ [lit "# END " ++ lit "trail.txt"]) ->
        processLine Sample.os
          (fun p => processIncludePath Sample.os 1 p Sample.root)
          Sample.template (lit "    #include: trail.txt")
        = Ret [] (Emit (unlines
                          (map (fun l => lit "    " ++ dropCR l)
                               ((lit "# START " ++ lit "trail.txt")
                                :: kept ++ [lit "# END " ++ lit "trail.txt"])
                           ++ [[]])))).
Proof.
  apply (@file_include_block_framed Sample.os 1 Sample.root Sample.template
           (lit "    #include: trail.txt") {| IsDir := false |}
           (lit "/r/trail.txt") [] (Sample.text ["a"; ""; ""]%string)).
  - reflexivity.
  - discriminate.
  - reflexivity.
  - reflexivity.
  - reflexivity.
  - noLF_lit.
  - reflexivity.
Defined.

(** ** The expansions that succeed, in full *)

Section Characterised.

Variable os : OS.

(** The loop returns the blocks of its lines, whatever the length of the
    lines of the includes. *)
Lemma scanLoop_of_emitted pip filePath lines blocks output :
  Forall2 (Emitted os pip filePath) lines blocks ->
  exists w,
    scanLoop os pip filePath lines output
    = Ret w (inl (output ++ unlines (List.concat blocks))).
Proof.
  intros HF. revert output.
  induction HF as [|l b ls bs Hlb _ IH]; intros output.
  - exists []. cbn. now rewrite app_nil_r.
  - cbn [scanLoop List.concat]. rewrite unlines_app, app_assoc.
    destruct Hlb as [H|H1 H2|w content H1 H2 H3].
    + rewrite (processLine_copy os _ _ _ H).
      destruct (IH (output ++ l ++ [LF])) as [w' E].
      exists w'. rewrite bind_ret_l, E. cbn [unlines flat_map].
      now rewrite app_nil_r.
    + rewrite (processLine_directive os _ _ _ H1), H2. cbn [isEmpty].
      destruct (IH output) as [w' E].
      exists (EmptyInclude filePath :: w'). cbn [bind].
      rewrite E. cbn. now rewrite app_nil_r.
    + erewrite processLine_emit by eassumption.
      destruct (IH (output ++ indentBlock (indentationOf l) content))
        as [w' E].
      exists (w ++ w'). cbn [bind]. rewrite E.
      now rewrite indentBlock_lines.
Qed.

(** X17. The calls of [processFile] that return a text, and the text:
    the call returns [out] without error exactly when the file can be
    opened and is read to its end, every directive with a path has an
    include that returns without error, and [out] is made, in the order of
    the lines, of each line that is no directive, of nothing for a directive
    without a path, and for any other directive of the lines its scanner
    delivers for the content of the include, each behind the indentation,
    and one empty line; between the markers for an included file.  An
    include with a line that fills the buffer is no exception: its scanner
    delivers the lines in front of that line. *)
Theorem expansion_characterised fuel filePath rootDir (isRoot : bool) out :
  (exists w,
      processFile os (S fuel) filePath rootDir isRoot = Ret w (out, None))
  <-> exists absPath file blocks,
        Abs os filePath = inl absPath
        /\ Open os absPath = inl file
        /\ scanErr (NewScanner file) = None
        /\ Forall2 (Emitted os (fun p => processIncludePath os fuel p rootDir)
                            filePath)
                   (tokens (NewScanner file)) blocks
        /\ out = render isRoot (markerPath os filePath rootDir absPath)
                        (List.concat blocks).
Proof.
  split.
  - intros [w H].
    destruct (processFile_opened _ _ _ _ _ H)
      as [n [absPath [file [E [HA HO]]]]]. injection E as <-.
    destruct (@processFile_emitted os fuel filePath rootDir isRoot absPath
                file w out HA HO H) as [blocks [HF Eout]].
    exists absPath, file, blocks. repeat split; try assumption.
    cbn [processFile] in H. unfold processFileWith in H.
    rewrite HA, HO in H. cbv zeta in H.
    apply bind_Ret_inv in H. destruct H as [w1 [r [w2 [_ [Hk _]]]]].
    destruct r as [output|err]; [|discriminate Hk].
    now destruct (scanErr (NewScanner file)).
  - intros [absPath [file [blocks [HA [HO [HE [HF ->]]]]]]].
    cbn [processFile]. unfold processFileWith. rewrite HA, HO. cbv zeta.
    match goal with
    | |- context [scanLoop _ ?p _ ?l ?o] =>
        destruct (@scanLoop_of_emitted p filePath l blocks o HF) as [w E]
    end.
    exists w. rewrite E. cbn [bind]. rewrite HE. unfold render.
    destruct isRoot; cbn; now rewrite app_nil_r.
Qed.

End Characterised.
